(** * Echo state networks of notebooks/03_echo_state_networks.ipynb

    A shallow embedding of the numerical core of the notebook:
    [esn_collect], [esn_fit], [esn_auto], the normalisation lines of
    [esn_plot] and the [mackey_glass] integrator.

    Conventions of the embedding.
    - A numpy [float64] is idealised as an element of an ordered field [F]:
      arithmetic is exact, there is no rounding and no [inf] or [nan]
      (where numpy divides by zero the field has [x / 0 = 0]).  The
      definitions and theorems are stated for every such field; the reals
      of the Standard Library, with its [tanh], are one of them, and the
      rationals are used where a result is computed.
    - A 2-D array of shape [(m, n)] is a matrix ['M[F]_(m, n)]; a 1-D array
      of shape [(n,)] is a row vector ['rV[F]_n].  Shapes are in the types,
      so numpy's shape errors cannot occur.
    - Indexing is checked as numpy checks it: an index out of range raises
      [IndexError].  Fallible code lives in the [result] monad, and an
      array that the code updates in place is threaded through it.
    - numpy functions that are not code of the notebook are parameters
      ([np.tanh], float [**]) or are modelled by their contract
      ([np.linalg.solve], [np.linalg.norm(., 2)]). *)

From Stdlib Require Import Rbase Rfunctions Exp_prop Rtrigo_def Rpower.
From Stdlib Require Import Epsilon FunctionalExtensionality Lra.
From HB Require Import structures.
From mathcomp Require Import boot order algebra.
From mathcomp Require Import archimedean rat.

Set Implicit Arguments.
Unset Strict Implicit.
Unset Printing Implicit Defensive.

Import GRing.Theory Num.Theory Order.Theory.
Local Open Scope ring_scope.

(** ** Exceptions and the result monad *)

Inductive error : Type :=
  | IndexError          (* an array index out of range *)
  | LinAlgError         (* np.linalg.solve on a singular matrix *)
  | ZeroDivisionError.  (* a Python float divided by zero *)

Inductive result (A : Type) : Type :=
  | Ok of A
  | Raise of error.

Arguments Ok {A} _.
Arguments Raise {A} _.

Definition bind {A B : Type} (r : result A) (k : A -> result B) : result B :=
  match r with
  | Ok a => k a
  | Raise e => Raise e
  end.

Notation "x <- r ;; k" := (bind r (fun x => k))
  (at level 100, r at next level, right associativity,
   format "'[v' x  <-  r  ;;  '/' k ']'").

(** [for t in range(lo, hi): st = body(t, st)], stopping at the first
    exception. *)
Definition for_range {S : Type} (lo hi : nat)
    (body : nat -> S -> result S) (init : S) : result S :=
  foldl (fun acc t => st <- acc ;; body t st) (Ok init) (iota lo (hi - lo)).

(** ** Array indexing *)

(** A Python index [i] into an axis of length [n]: [0 <= i < n] counts from
    the front, [-n <= i < 0] from the back, anything else is out of range. *)
Definition py_index (n : nat) (i : int) : option 'I_n :=
  match i with
  | Posz k => insub k
  | Negz k => if (k < n)%N then insub (n - k.+1)%N else None
  end.

Section Arrays.

Variable F : Type.

(** [M[i, :]] *)
Definition getrow (m n : nat) (M : 'M[F]_(m, n)) (i : int) : result 'rV[F]_n :=
  if py_index m i is Some r then Ok (row r M) else Raise IndexError.

(** The array [M] after row [r] has been overwritten with [v]. *)
Definition row_update (m n : nat) (M : 'M[F]_(m, n)) (r : 'I_m)
    (v : 'rV[F]_n) : 'M[F]_(m, n) :=
  \matrix_(k, j) if k == r then v 0 j else M k j.

(** [M[i, :] = v] *)
Definition setrow (m n : nat) (M : 'M[F]_(m, n)) (i : int) (v : 'rV[F]_n) :
    result 'M[F]_(m, n) :=
  if py_index m i is Some r then Ok (row_update M r v) else Raise IndexError.

(** [x[i]] *)
Definition getitem (n : nat) (x : 'rV[F]_n) (i : int) : result F :=
  if py_index n i is Some c then Ok (x 0 c) else Raise IndexError.

(** The array [x] after entry [c] has been overwritten with [a]. *)
Definition item_update (n : nat) (x : 'rV[F]_n) (c : 'I_n) (a : F) :
    'rV[F]_n :=
  \row_j if j == c then a else x 0 j.

(** [x[i] = a] *)
Definition setitem (n : nat) (x : 'rV[F]_n) (i : int) (a : F) :
    result 'rV[F]_n :=
  if py_index n i is Some c then Ok (item_update x c a) else Raise IndexError.

End Arrays.

(** ** The echo state network *)

Section ESN.

Variable F : realFieldType.

(** [np.tanh], applied entry by entry by [map_mx]. *)
Variable tanh : F -> F.

(** [M @ v] for a 2-D [M] and a 1-D [v]. *)
Definition matvec (m n : nat) (M : 'M[F]_(m, n)) (v : 'rV[F]_n) : 'rV[F]_m :=
  (M *m v^T)^T.

Variables Dx Dz : nat.

Implicit Types (A : 'M[F]_Dx) (C : 'M[F]_(Dx, Dz)) (zeta : 'rV[F]_Dx).
Implicit Types (alpha L : F).

(** The right-hand side of the loop body of [esn_collect]:
    [alpha * X[t-1,:] + (1-alpha) * np.tanh(A @ X[t-1,:] + C @ Z[t,:] + zeta)]. *)
Definition esn_collect_update A C zeta alpha
    (x_prev : 'rV[F]_Dx) (z : 'rV[F]_Dz) : 'rV[F]_Dx :=
  alpha *: x_prev
  + (1 - alpha) *: map_mx tanh (matvec A x_prev + matvec C z + zeta).

(** <<
def esn_collect(Z, A, C, zeta, alpha):
    T = Z.shape[0]
    Dx = A.shape[0]
    X = np.zeros([T, Dx])
    X[0,:] = (1-alpha) * np.tanh(C @ Z[1,:] + zeta)
    for t in range(1,T):
        X[t,:] = alpha * X[t-1,:] + (1-alpha) * np.tanh(A @ X[t-1,:] + C @ Z[t,:] + zeta)
    return(X)
>> *)
Definition esn_collect (T : nat) (Z : 'M[F]_(T, Dz)) A C zeta alpha :
    result 'M[F]_(T, Dx) :=
  let X : 'M[F]_(T, Dx) := 0 in
  z1 <- getrow Z 1 ;;
  X <- setrow X 0 ((1 - alpha) *: map_mx tanh (matvec C z1 + zeta)) ;;
  for_range 1 T (fun t X =>
    x_prev <- getrow X (t%:Z - 1) ;;
    z_t <- getrow Z t%:Z ;;
    setrow X t%:Z (esn_collect_update A C zeta alpha x_prev z_t)) X.

(** [np.linalg.solve(M, B)]: the solution of [M X = B] for an invertible
    [M]; a singular [M] raises [LinAlgError]. *)
Definition solve (n p : nat) (M : 'M[F]_n) (B : 'M[F]_(n, p)) :
    result 'M[F]_(n, p) :=
  if M \in unitmx then Ok (invmx M *m B) else Raise LinAlgError.

(** <<
def esn_fit(Y, Z, L, A, C, zeta, alpha):
    X = esn_collect(Z, A, C, zeta, alpha)
    T, K = X.shape
    W_hat = np.linalg.solve(np.dot(X.T, X) + (T*L)*np.eye(K), np.dot(X.T, Y))
    Y_fit = X @ W_hat
    Error = Y - Y_fit
    return (W_hat, X, Y_fit, Error)
>> *)
Definition esn_fit (T Dy : nat) (Y : 'M[F]_(T, Dy)) (Z : 'M[F]_(T, Dz))
    L A C zeta alpha :
    result ('M[F]_(Dx, Dy) * 'M[F]_(T, Dx) * 'M[F]_(T, Dy) * 'M[F]_(T, Dy)) :=
  X <- esn_collect Z A C zeta alpha ;;
  W_hat <- solve (X^T *m X + (T%:R * L) *: 1%:M) (X^T *m Y) ;;
  let Y_fit := X *m W_hat in
  let Error := Y - Y_fit in
  Ok (W_hat, X, Y_fit, Error).

(** The right-hand side of the state update in the loop of [esn_auto]:
    [alpha * Xh[t-1,:] + (1-alpha) * np.tanh(R @ Xh[t-1,:] + zeta)]. *)
Definition esn_auto_update (R : 'M[F]_Dx) zeta alpha
    (x_prev : 'rV[F]_Dx) : 'rV[F]_Dx :=
  alpha *: x_prev + (1 - alpha) *: map_mx tanh (matvec R x_prev + zeta).

(** <<
def esn_auto(X0, h, A, C, zeta, alpha, W):
    Dx = A.shape[0]
    Dy = W.shape[1]
    R = A + C @ W.T
    Xh = np.zeros([h, Dx])
    Yh = np.zeros([h, Dy])
    Xh[0,:] = X0
    Yh[0,:] = X0 @ W
    for t in range(1,h):
        Xh[t,:] = alpha * Xh[t-1,:] + (1-alpha) * np.tanh(R @ Xh[t-1,:] + zeta)
        Yh[t,:] = Xh[t,:] @ W
    return(Xh, Yh)
>>
    [A + C @ W.T] has a shape only when [W] has as many columns as [C];
    the type of [W] says so. *)
Definition esn_auto (X0 : 'rV[F]_Dx) (h : nat) A C zeta alpha
    (W : 'M[F]_(Dx, Dz)) : result ('M[F]_(h, Dx) * 'M[F]_(h, Dz)) :=
  let R := A + C *m W^T in
  let Xh : 'M[F]_(h, Dx) := 0 in
  let Yh : 'M[F]_(h, Dz) := 0 in
  Xh <- setrow Xh 0 X0 ;;
  Yh <- setrow Yh 0 (X0 *m W) ;;
  for_range 1 h (fun t st =>
    x_prev <- getrow st.1 (t%:Z - 1) ;;
    Xh <- setrow st.1 t%:Z (esn_auto_update R zeta alpha x_prev) ;;
    x_t <- getrow Xh t%:Z ;;
    Yh <- setrow st.2 t%:Z (x_t *m W) ;;
    Ok (Xh, Yh)) (Xh, Yh).

(** The normalisation lines of [esn_plot]:
    [A = (A / np.linalg.norm(A, 2)) * rho], where [nrm] is the value that
    [np.linalg.norm(A, 2)] returned. *)
Definition esn_plot_normalize (m n : nat) (M : 'M[F]_(m, n)) (nrm rho : F) :
    'M[F]_(m, n) :=
  map_mx (fun a => a / nrm * rho) M.

End ESN.

(** ** The Mackey-Glass integrator *)

Section MackeyGlass.

Variable F : archiRealFieldType.

(** [x ** n] on floats. *)
Variable fpow : F -> F -> F.

(** [x / y] on Python floats. *)
Definition py_div (x y : F) : result F :=
  if y == 0 then Raise ZeroDivisionError else Ok (x / y).

(** [int(x)] on a float: truncation toward zero. *)
Definition int_of_float (x : F) : int :=
  if 0 <= x then Num.floor x else Num.ceil x.

(** [max(t - int(q), 0)], where [q] is the value of [tau / delta_t]. *)
Definition delay_index (q : F) (t : nat) : int :=
  Num.max (t%:Z - int_of_float q) 0.

(** The number of steps that a delay spans, for a quotient [q >= 0]:
    [int(q)] as a natural number. *)
Definition delay_steps (q : F) : nat := `|Num.floor q|%N.

(** The right-hand side of the loop body of [mackey_glass], from the two
    values it reads. *)
Definition mackey_glass_update (beta gamma n delta_t x_prev x_delay : F) : F :=
  x_prev
  + delta_t * (beta * x_delay / (1 + fpow x_delay n) - gamma * x_prev).

(** <<
def mackey_glass(beta, gamma, n, tau, a, delta_t, num_steps):
    x = np.zeros(num_steps)
    x[0] = 0.5  # Initial condition
    for t in range(1, num_steps):
        delay_index = max(t - int(tau / delta_t), 0)
        x[t] = x[t - 1] + delta_t * (beta * x[delay_index] / (1.0 + x[delay_index]**n) - gamma * x[t - 1])
    return a * x
>> *)
Definition mackey_glass (beta gamma n tau a delta_t : F) (num_steps : nat) :
    result 'rV[F]_num_steps :=
  let x : 'rV[F]_num_steps := 0 in
  x <- setitem x 0 (1 / 2) ;;
  x <- for_range 1 num_steps (fun t x =>
         q <- py_div tau delta_t ;;
         let d := delay_index q t in
         x_prev <- getitem x (t%:Z - 1) ;;
         x_delay <- getitem x d ;;
         setitem x t%:Z
           (mackey_glass_update beta gamma n delta_t x_prev x_delay)) x ;;
  Ok (a *: x).

(** The delay of the specification, which rounds [tau / delta_t] to the
    nearest integer (a tie goes to the even neighbour, as Python's
    [round] does). *)
Definition round_nearest (x : F) : int :=
  let f := Num.floor x in
  let r := x - f%:~R in
  if r < 1 / 2 then f
  else if 1 / 2 < r then f + 1
  else if odd `|f|%N then f + 1 else f.

Definition spec_delay_index (q : F) (t : nat) : int :=
  Num.max (t%:Z - round_nearest q) 0.

End MackeyGlass.

(** ** The operator 2-norm *)

Section OperatorNorm.

Variable F : realFieldType.

(** The squared Euclidean norm of a 1-D array. *)
Definition sqnorm (n : nat) (v : 'rV[F]_n) : F := \sum_j v 0 j ^+ 2.

(** [s] is the operator 2-norm of [M], the value of [np.linalg.norm(M, 2)]:
    the least [s >= 0] with [|M @ v| <= s * |v|] for every [v].  Both sides
    are squared, so that no square root is needed. *)
Definition is_norm2 (m n : nat) (M : 'M[F]_(m, n)) (s : F) : Prop :=
  [/\ 0 <= s,
      forall v : 'rV[F]_n, sqnorm (matvec M v) <= s ^+ 2 * sqnorm v
    & forall c : F, 0 <= c ->
        (forall v : 'rV[F]_n, sqnorm (matvec M v) <= c ^+ 2 * sqnorm v) ->
        s <= c].

End OperatorNorm.

(** ** The Lorenz integrator *)

Section Lorenz.

Variable F : realFieldType.

(** The new [(x, y, z)] that one pass of the loop of [lorenz_attractor]
    computes: the three increments are taken from the old values, then the
    three variables are advanced. *)
Definition lorenz_step (sigma rho beta delta_t : F) (s : F * F * F) :
    F * F * F :=
  let '(x, y, z) := s in
  let dx := sigma * (y - x) in
  let dy := x * (rho - z) - y in
  let dz := x * y - beta * z in
  (x + delta_t * dx, y + delta_t * dy, z + delta_t * dz).

(** The state after [k] passes of the loop. *)
Definition lorenz_state (sigma rho beta delta_t : F) (s : F * F * F)
    (k : nat) : F * F * F :=
  iter k (lorenz_step sigma rho beta delta_t) s.

(** <<
def lorenz_attractor(sigma, rho, beta, initial_state, delta_t, num_steps):
    x, y, z = initial_state
    x_vals, y_vals, z_vals = [x], [y], [z]
    for _ in range(num_steps):
        dx = sigma * (y - x)
        dy = x * (rho - z) - y
        dz = x * y - beta * z
        x += delta_t * dx
        y += delta_t * dy
        z += delta_t * dz
        x_vals.append(x)
        y_vals.append(y)
        z_vals.append(z)
    return np.array(x_vals), np.array(y_vals), np.array(z_vals)
>>
    The three Python lists are sequences, [append] is [rcons]. *)
Definition lorenz_attractor (sigma rho beta : F) (initial_state : F * F * F)
    (delta_t : F) (num_steps : nat) : seq F * seq F * seq F :=
  let '(x, y, z) := initial_state in
  let st :=
    iter num_steps
      (fun st : F * F * F * (seq F * seq F * seq F) =>
         let '(s, (x_vals, y_vals, z_vals)) := st in
         let '(x, y, z) := lorenz_step sigma rho beta delta_t s in
         ((x, y, z), (rcons x_vals x, rcons y_vals y, rcons z_vals z)))
      ((x, y, z), ([:: x], [:: y], [:: z])) in
  st.2.

End Lorenz.

(** ** Fitting, then forecasting *)

Section Experiments.

Variables (F : realFieldType) (tanh : F -> F) (Dx Dz : nat).

(** The two calls that the experiments of the notebook chain (the second
    [esn_plot], [esn_lorenz], [esn_mackeyglass], [esn_nonlinear_ar]): <<
    W_hat, X, Y_fit, _ = esn_fit(Y_train_out, Y_train_in, Lambda, A, C, zeta, alpha)
    Xh, Yh = esn_auto(X[-1,:], h, A, C, zeta, alpha, W_hat)
>>
    The result collects the five values that the experiments go on to
    plot. *)
Definition esn_fit_auto (T : nat) (Y_train_out Y_train_in : 'M[F]_(T, Dz))
    (Lambda : F) (A : 'M[F]_Dx) (C : 'M[F]_(Dx, Dz)) (zeta : 'rV[F]_Dx)
    (alpha : F) (h : nat) :
    result ('M[F]_(Dx, Dz) * 'M[F]_(T, Dx) * 'M[F]_(T, Dz)
            * 'M[F]_(h, Dx) * 'M[F]_(h, Dz)) :=
  fit <- esn_fit tanh Y_train_out Y_train_in Lambda A C zeta alpha ;;
  let W_hat := fit.1.1.1 in
  let X := fit.1.1.2 in
  let Y_fit := fit.1.2 in
  x_last <- getrow X (-1) ;;
  auto <- esn_auto tanh x_last h A C zeta alpha W_hat ;;
  Ok (W_hat, X, Y_fit, auto.1, auto.2).

End Experiments.

(** ** The nonlinear autoregression *)

Section NonlinearAR.

Variable F : realFieldType.

Lemma slice_from_bound (n start : nat) (j : 'I_(n - start)) :
  (start + j < n)%N.
Proof. by rewrite -ltn_subRL. Qed.

(** [x[start:]] for a 1-D array and [start >= 0]: the entries from index
    [start] on, none when [start] is past the end. *)
Definition slice_from (n : nat) (x : 'rV[F]_n) (start : nat) :
    'rV[F]_(n - start) :=
  \row_j x 0 (Ordinal (slice_from_bound j)).

(** The numbers that the generator [np.random.default_rng(seed)] gives out,
    in the order of the calls of [rng.uniform(low=-1, high=1)].  The state
    of the generator is the number of draws made. *)
Variable draws : nat -> F.

Definition rng_uniform (rng : nat) : F * nat := (draws rng, rng.+1).

(** [2 * x / (1 + 0.8 * x**2)] *)
Definition nonlin_ar_map (x : F) : F := 2 * x / (1 + 4 / 5 * x ^+ 2).

(** <<
def nonlin_ar(n, init=100, seed=12345):
    rng = np.random.default_rng(seed)
    E = np.zeros(n+init)
    X = np.zeros(n+init)
    E[0] = rng.uniform(low=-1, high=1)
    for t in range(1, n+init):
        E[t] = rng.uniform(low=-1, high=1)
        X[t] = 2 * X[t-1] / (1 + 0.8*X[t-1]**2) + E[t]
    return(X[init:], E[init:])
>> *)
Definition nonlin_ar (n init : nat) :
    result ('rV[F]_(n + init - init) * 'rV[F]_(n + init - init)) :=
  let rng := 0%N in
  let E : 'rV[F]_(n + init) := 0 in
  let X : 'rV[F]_(n + init) := 0 in
  let e_rng := rng_uniform rng in
  E <- setitem E 0 e_rng.1 ;;
  st <- for_range 1 (n + init) (fun t st =>
          let e_rng := rng_uniform st.1.1 in
          E <- setitem st.1.2 t%:Z e_rng.1 ;;
          x_prev <- getitem st.2 (t%:Z - 1) ;;
          e_t <- getitem E t%:Z ;;
          X <- setitem st.2 t%:Z (nonlin_ar_map x_prev + e_t) ;;
          Ok (e_rng.2, E, X)) (e_rng.2, E, X) ;;
  Ok (slice_from st.2 init, slice_from st.1.2 init).

(** The vectors that the generator gives out, in the order of the calls of
    [rng.uniform(low=-1, high=1, size=mc)]. *)
Variable mc : nat.
Variable draws_vec : nat -> 'rV[F]_mc.

Definition rng_uniform_vec (rng : nat) : 'rV[F]_mc * nat :=
  (draws_vec rng, rng.+1).

(** <<
def nonlin_ar_condpred(h, X0, mc=1000, seed=54321):
    rng = np.random.default_rng(seed)
    Xh = np.zeros([h, mc])
    Xh[0,:] = X0
    for t in range(1, h):
        # randomly sample innovations
        E = rng.uniform(low=-1, high=1, size=mc)
        Xh[t,:] = 2 * Xh[t-1,:] / (1 + 0.8*Xh[t-1,:]**2) + E
    return(Xh)
>>
    [X0] is a scalar, which the assignment to [Xh[0,:]] broadcasts. *)
Definition nonlin_ar_condpred (h : nat) (X0 : F) : result 'M[F]_(h, mc) :=
  let rng := 0%N in
  let Xh : 'M[F]_(h, mc) := 0 in
  Xh <- setrow Xh 0 (const_mx X0) ;;
  st <- for_range 1 h (fun t st =>
          let E_rng := rng_uniform_vec st.1 in
          x_prev <- getrow st.2 (t%:Z - 1) ;;
          Xh <- setrow st.2 t%:Z (map_mx nonlin_ar_map x_prev + E_rng.1) ;;
          Ok (E_rng.2, Xh)) (rng, Xh) ;;
  Ok st.2.

End NonlinearAR.

(** ** The sequence datasets *)

(** A bound [i] of a Python slice of a sequence of length [n], brought into
    [0 .. n]: a negative bound counts from the end. *)
Definition py_bound (n : nat) (i : int) : nat :=
  match i with
  | Posz k => minn k n
  | Negz k => (n - k.+1)%N
  end.

(** [s[start:stop]] *)
Definition py_slice (T : Type) (s : seq T) (start stop : int) : seq T :=
  let a := py_bound (size s) start in
  let b := py_bound (size s) stop in
  take (b - a) (drop a s).

(** [m % d] and [a // d] on Python integers, for a divisor [d >= 0]. *)
Definition py_mod (m d : nat) : result nat :=
  if d == 0%N then Raise ZeroDivisionError else Ok (m %% d)%N.

Definition py_floordiv (a : int) (d : nat) : result int :=
  if d == 0%N then Raise ZeroDivisionError else Ok (a %/ d)%Z.

Section Datasets.

(** The rows of the feature tensor and of the target tensor, with the zero
    rows that [torch.zeros] makes. *)
Variables (xrow yrow : Type) (xzero : xrow) (yzero : yrow).

(** <<
class CityDataset(Dataset):
    def __init__(self, X, y, seq_len):
        self.X = torch.Tensor(X)
        self.y = torch.Tensor(y)
        self.seq_len = seq_len
    def __len__(self):
        return self.y.shape[0] - self.seq_len
    def __getitem__(self, idx):
        return self.X[idx:idx+self.seq_len], self.y[idx:idx+self.seq_len]
>> *)
Record CityDataset : Type := MkCityDataset {
  city_X : seq xrow;
  city_y : seq yrow;
  city_seq_len : nat
}.

Definition CityDataset_init (X : seq xrow) (y : seq yrow) (seq_len : nat) :
    CityDataset :=
  MkCityDataset X y seq_len.

Definition CityDataset_len (self : CityDataset) : int :=
  Posz (size (city_y self)) - Posz (city_seq_len self).

Definition CityDataset_getitem (self : CityDataset) (idx : int) :
    seq xrow * seq yrow :=
  (py_slice (city_X self) idx (idx + Posz (city_seq_len self)),
   py_slice (city_y self) idx (idx + Posz (city_seq_len self))).

(** <<
class PMDataset(Dataset):
    def __init__(self, X, y, seq_len, enforce_shape=False):
        self.X = torch.Tensor(X)
        self.y = torch.Tensor(y)
        self.added = 0
        if enforce_shape and (X.shape[0] % seq_len != 0):
            self.X = torch.cat([self.X, torch.zeros(seq_len - X.shape[0] % seq_len, *self.X.shape[1:])])
            self.y = torch.cat([self.y, torch.zeros(seq_len - y.shape[0] % seq_len, *self.y.shape[1:])])
            self.added = seq_len - X.shape[0] % seq_len
        self.seq_len = seq_len
    def __len__(self):
        return (self.y.shape[0] - self.seq_len) // self.seq_len + 1
    def __getitem__(self, idx):
        idx *= self.seq_len
        return self.X[idx:idx+self.seq_len], self.y[idx:idx+self.seq_len]
>> *)
Record PMDataset : Type := MkPMDataset {
  pm_X : seq xrow;
  pm_y : seq yrow;
  pm_added : nat;
  pm_seq_len : nat
}.

Definition PMDataset_init (X : seq xrow) (y : seq yrow) (seq_len : nat)
    (enforce_shape : bool) : result PMDataset :=
  if enforce_shape then
    r <- py_mod (size X) seq_len ;;
    if r != 0%N then
      rx <- py_mod (size X) seq_len ;;
      let self_X := X ++ nseq (seq_len - rx) xzero in
      ry <- py_mod (size y) seq_len ;;
      let self_y := y ++ nseq (seq_len - ry) yzero in
      ra <- py_mod (size X) seq_len ;;
      Ok (MkPMDataset self_X self_y (seq_len - ra) seq_len)
    else Ok (MkPMDataset X y 0 seq_len)
  else Ok (MkPMDataset X y 0 seq_len).

Definition PMDataset_len (self : PMDataset) : result int :=
  q <- py_floordiv (Posz (size (pm_y self)) - Posz (pm_seq_len self))
         (pm_seq_len self) ;;
  Ok (q + 1).

Definition PMDataset_getitem (self : PMDataset) (idx : int) :
    seq xrow * seq yrow :=
  let idx := idx * Posz (pm_seq_len self) in
  (py_slice (pm_X self) idx (idx + Posz (pm_seq_len self)),
   py_slice (pm_y self) idx (idx + Posz (pm_seq_len self))).

End Datasets.

(** ** Concrete inputs *)

(** The input sequence [[0.], [1.]] of two scalar inputs. *)
Definition Z01 (F : realFieldType) : 'M[F]_(2, 1) := \matrix_(t, j) (t : nat)%:R.

(** Float power over the rationals for an integral exponent, the only kind
    that the notebook passes ([n = 10]). *)
Definition rat_pow (x n : rat) : rat := x ^ Num.floor n.

(** Draws that alternate between 1 and -1. *)
Definition alternating (k : nat) : rat := (-1) ^+ k.

(** ** The real numbers as an ordered field

    The reals of the Standard Library, with its [tanh], are the intended
    reading of the float arrays.  They are given the structure of a
    [realFieldType] here, so that every theorem below applies to them. *)

Delimit Scope R_scope with Re.

Ltac Rlra := Stdlib.micromega.Lra.lra.
Ltac Rnra := Stdlib.micromega.Lra.nra.

Definition Req_bool (x y : R) : bool := if Req_dec_T x y then true else false.

Lemma Req_boolP : Equality.axiom Req_bool.
Proof.
by move=> x y; rewrite /Req_bool; case: Req_dec_T => eq_xy; constructor.
Qed.

HB.instance Definition _ := hasDecEq.Build R Req_boolP.

Definition Rfind (P : pred R) (n : nat) : option R :=
  let x := epsilon (inhabits R0) (fun y => P y) in
  if P x then Some x else None.

Lemma Rfind_correct (P : pred R) (n : nat) (x : R) : Rfind P n = Some x -> P x.
Proof. by rewrite /Rfind; case: ifP => // Px [<-]. Qed.

Lemma Rfind_complete (P : pred R) : (exists x, P x) -> exists n, Rfind P n.
Proof.
move=> exP; exists 0%N; rewrite /Rfind.
by have -> := epsilon_spec (inhabits R0) (fun y => P y) exP.
Qed.

Lemma Rfind_ext (P Q : pred R) : P =1 Q -> Rfind P =1 Rfind Q.
Proof.
by move=> eqPQ n; have -> : P = Q by apply: functional_extensionality.
Qed.

HB.instance Definition _ :=
  hasChoice.Build R Rfind_correct Rfind_complete Rfind_ext.

HB.instance Definition _ := GRing.isZmodule.Build R
  (fun x y z => esym (Rplus_assoc x y z)) Rplus_comm Rplus_0_l Rplus_opp_l.

Lemma R1_neq0 : R1 != R0.
Proof. by apply/eqP; exact: R1_neq_R0. Qed.

HB.instance Definition _ := GRing.Zmodule_isComNzRing.Build R
  (fun x y z => esym (Rmult_assoc x y z)) Rmult_comm Rmult_1_l
  Rmult_plus_distr_r R1_neq0.

Lemma RmulVf (x : R) : x != 0 -> Rmult (Rinv x) x = 1.
Proof. by move=> /eqP ne0_x; apply: Rinv_l. Qed.

HB.instance Definition _ := GRing.ComNzRing_isField.Build R RmulVf Rinv_0.

Definition Rle_bool (x y : R) : bool := if Rle_dec x y then true else false.
Definition Rlt_bool (x y : R) : bool := if Rlt_dec x y then true else false.

Lemma Rle_boolP (x y : R) : reflect (Rle x y) (Rle_bool x y).
Proof. by rewrite /Rle_bool; case: Rle_dec => le_xy; constructor. Qed.

Lemma Rlt_boolP (x y : R) : reflect (Rlt x y) (Rlt_bool x y).
Proof. by rewrite /Rlt_bool; case: Rlt_dec => lt_xy; constructor. Qed.

Lemma Rle0_add (x y : R) :
  Rle_bool 0 x -> Rle_bool 0 y -> Rle_bool 0 (x + y).
Proof.
move=> /Rle_boolP ge0_x /Rle_boolP ge0_y; apply/Rle_boolP.
exact: Rplus_le_le_0_compat.
Qed.

Lemma Rle0_mul (x y : R) :
  Rle_bool 0 x -> Rle_bool 0 y -> Rle_bool 0 (x * y).
Proof.
move=> /Rle_boolP ge0_x /Rle_boolP ge0_y; apply/Rle_boolP.
exact: Rmult_le_pos.
Qed.

Lemma Rle0_anti (x : R) : Rle_bool 0 x -> Rle_bool x 0 -> x = 0.
Proof. by move=> /Rle_boolP ge0_x /Rle_boolP le0_x; apply: Rle_antisym. Qed.

Lemma Rsub_ge0 (x y : R) : Rle_bool 0 (y - x) = Rle_bool x y.
Proof.
apply/Rle_boolP/Rle_boolP; rewrite /GRing.add /GRing.opp /GRing.zero /=; Rlra.
Qed.

Lemma Rle0_total (x : R) : Rle_bool 0 x || Rle_bool x 0.
Proof.
apply/orP; case: (Rle_dec R0 x) => [ge0_x|lt0_x]; [left | right].
  exact/Rle_boolP.
by apply/Rle_boolP; rewrite /GRing.zero /=; Rlra.
Qed.

Lemma Rge0_abs (x : R) : Rle_bool 0 x -> Rabs x = x.
Proof. by move=> /Rle_boolP ge0_x; apply: Rabs_pos_eq. Qed.

Lemma Rlt_bool_def (x y : R) : Rlt_bool x y = (y != x) && Rle_bool x y.
Proof.
apply/Rlt_boolP/andP => [lt_xy|[/eqP ne_yx /Rle_boolP le_xy]]; last by Rlra.
by split; [apply/eqP | apply/Rle_boolP]; Rlra.
Qed.

HB.instance Definition _ := Num.IntegralDomain_isLeReal.Build R
  Rle0_add Rle0_mul Rle0_anti Rsub_ge0 Rle0_total Rabs_Ropp Rge0_abs
  Rlt_bool_def.

(** [tanh] takes its values in [(-1, 1)], and it separates 0 from 1. *)
Lemma tanh_le1 (x : R) : `|tanh x| <= 1.
Proof.
apply/Rle_boolP; rewrite /Num.norm /= /tanh /sinh /cosh.
have := exp_pos x; have := exp_pos (- x)%Re.
set a := exp x; set b := exp (- x)%Re => b_pos a_pos.
have c_pos : (0 < (a + b) / 2)%Re by Rlra.
have := Rinv_0_lt_compat _ c_pos; have := Rinv_r ((a + b) / 2)%Re.
rewrite /Rdiv; set i := Rinv (Rmult _ _) => eq_i i_pos.
have {}eq_i : ((a + b) * / 2 * i = 1)%Re by apply: eq_i; Rlra.
by apply: Rabs_le; rewrite /GRing.one /=; split; Rnra.
Qed.

Lemma tanh1_neq_tanh0 : tanh 1 <> tanh 0.
Proof.
have -> : tanh 0 = 0 by rewrite /tanh sinh_0 /Rdiv Rmult_0_l.
rewrite /tanh /sinh /cosh.
have := exp_pos 1%Re; have := exp_pos (- 1)%Re.
have := exp_increasing (- 1)%Re 1%Re.
set a := exp 1%Re; set b := exp (- 1)%Re => lt_ba b_pos a_pos.
have {}lt_ba : (b < a)%Re by apply: lt_ba; Rlra.
have c_pos : (0 < (a + b) / 2)%Re by Rlra.
have := Rinv_0_lt_compat _ c_pos.
rewrite /Rdiv; set i := Rinv (Rmult _ _) => i_pos.
suff : (0 < (a - b) * / 2 * i)%Re by rewrite /GRing.zero /= => gt0 eq0; Rlra.
by Rnra.
Qed.

(** * Properties *)

(** ** The result monad and the loop *)

Lemma for_range_nil (S : Type) (lo hi : nat) (body : nat -> S -> result S)
    (init : S) :
  (hi <= lo)%N -> for_range lo hi body init = Ok init.
Proof. by rewrite /for_range -subn_eq0 => /eqP ->. Qed.

Lemma foldl_bind_raise (S : Type) (body : nat -> S -> result S) (e : error)
    (ts : seq nat) :
  foldl (fun acc t => st <- acc ;; body t st) (Raise e) ts = Raise e.
Proof. by elim: ts. Qed.

Lemma for_range_step (S : Type) (lo hi : nat) (body : nat -> S -> result S)
    (init : S) :
  (lo < hi)%N ->
  for_range lo hi body init = (st <- body lo init ;; for_range lo.+1 hi body st).
Proof.
rewrite /for_range => lt_lo_hi.
rewrite -[(hi - lo)%N]prednK ?subn_gt0 //= -subnS.
by case: (body lo init) => [st|e] //=; rewrite foldl_bind_raise.
Qed.

(** The loop rule: an invariant [P t st] that holds on entry and that every
    successful iteration carries from [t] to [t.+1] holds at [hi] on exit,
    and the loop does exit normally. *)
Lemma for_range_inv (S : Type) (P : nat -> S -> Prop) (lo hi : nat)
    (body : nat -> S -> result S) (init : S) :
  (lo <= hi)%N -> P lo init ->
  (forall t st, (lo <= t < hi)%N -> P t st ->
     exists2 st', body t st = Ok st' & P t.+1 st') ->
  exists2 st, for_range lo hi body init = Ok st & P hi st.
Proof.
have [k] := ubnP (hi - lo)%N; elim: k lo init => // k IHk lo init.
rewrite ltnS => le_k le_lo Pinit step.
case: (ltnP lo hi) => [lt_lo|ge_lo]; last first.
  have eq_lo : lo = hi by apply/eqP; rewrite eqn_leq le_lo ge_lo.
  by exists init; rewrite ?for_range_nil // -eq_lo.
have [|st' body_lo Pst'] := step lo init _ Pinit; first by rewrite leqnn.
rewrite for_range_step // body_lo /=.
apply: IHk => //.
  by rewrite subnS; apply: leq_trans le_k; rewrite ltn_predL subn_gt0.
move=> t st /andP[lt_t lt_hi]; apply: step.
by rewrite (ltnW lt_t).
Qed.

(** ** Indexing *)

Lemma py_index_ord (n : nat) (i : 'I_n) : py_index n (Posz i) = Some i.
Proof. by rewrite /py_index valK. Qed.

Lemma py_index_oob (n k : nat) : (n <= k)%N -> py_index n (Posz k) = None.
Proof. by move=> le_n_k; rewrite /py_index insubF // ltnNge le_n_k. Qed.

(** [x[-1]] is the last entry. *)
Lemma py_index_last (n : nat) : py_index n.+1 (-1) = Some ord_max.
Proof.
rewrite /py_index -[(-1)%R]/(Negz 0) /= subn1 /=.
by rewrite -[X in insub X]/(val (@ord_max n)) valK.
Qed.

Lemma predz (t : nat) : (0 < t)%N -> (Posz t - 1 = Posz t.-1)%R.
Proof. by case: t => // t _; rewrite intS addrC addKr. Qed.

Section ArrayFacts.

Variables (F : Type) (m n : nat).
Implicit Types (M : 'M[F]_(m, n)) (v : 'rV[F]_n) (x : 'rV[F]_n).

Lemma getrow_ord M (i : 'I_m) : getrow M (Posz i) = Ok (row i M).
Proof. by rewrite /getrow py_index_ord. Qed.

Lemma getrow_oob M (k : nat) : (m <= k)%N -> getrow M (Posz k) = Raise IndexError.
Proof. by move=> le_m_k; rewrite /getrow py_index_oob. Qed.

Lemma setrow_ord M (i : 'I_m) v : setrow M (Posz i) v = Ok (row_update M i v).
Proof. by rewrite /setrow py_index_ord. Qed.

Lemma row_update_same M (r : 'I_m) v : row r (row_update M r v) = v.
Proof. by apply/rowP => j; rewrite !mxE eqxx. Qed.

Lemma row_update_other M (r k : 'I_m) v :
  k != r -> row k (row_update M r v) = row k M.
Proof. by move=> /negPf ne_kr; apply/rowP => j; rewrite !mxE ne_kr. Qed.

Lemma getitem_ord x (i : 'I_n) : getitem x (Posz i) = Ok (x 0 i).
Proof. by rewrite /getitem py_index_ord. Qed.

Lemma setitem_ord x (i : 'I_n) (a : F) :
  setitem x (Posz i) a = Ok (item_update x i a).
Proof. by rewrite /setitem py_index_ord. Qed.

Lemma item_update_same x (c : 'I_n) (a : F) : item_update x c a 0 c = a.
Proof. by rewrite mxE eqxx. Qed.

Lemma item_update_other x (c k : 'I_n) (a : F) :
  k != c -> item_update x c a 0 k = x 0 k.
Proof. by move=> /negPf ne_kc; rewrite mxE ne_kc. Qed.

End ArrayFacts.

(** ** State collection *)

Section CollectFacts.

Variables (F : realFieldType) (tanh : F -> F) (Dx Dz : nat).
Implicit Types (A : 'M[F]_Dx) (C : 'M[F]_(Dx, Dz)) (zeta : 'rV[F]_Dx).
Implicit Types (alpha : F).

(** A sequence shorter than two never gets past [Z[1,:]]. *)
Lemma esn_collect_short (T : nat) (Z : 'M[F]_(T, Dz)) A C zeta alpha :
  (T < 2)%N -> esn_collect tanh Z A C zeta alpha = Raise IndexError.
Proof. by move=> lt_T_2; rewrite /esn_collect getrow_oob. Qed.

(** What [esn_collect] returns on a sequence of two inputs or more: row [0]
    is computed from [Z[1,:]], every later row from its predecessor and the
    input of its own index. *)
Lemma esn_collect_ok (T : nat) (Z : 'M[F]_(T, Dz)) A C zeta alpha :
  (1 < T)%N ->
  exists2 X : 'M[F]_(T, Dx),
    esn_collect tanh Z A C zeta alpha = Ok X
  & (forall i0 i1 : 'I_T, i0 = 0%N :> nat -> i1 = 1%N :> nat ->
       row i0 X = (1 - alpha) *: map_mx tanh (matvec C (row i1 Z) + zeta))
    /\ (forall i j : 'I_T, j = i.+1 :> nat ->
       row j X = esn_collect_update tanh A C zeta alpha (row i X) (row j Z)).
Proof.
move=> lt_1_T; have lt_0_T : (0 < T)%N := ltnW lt_1_T.
pose o0 := Ordinal lt_0_T; pose o1 := Ordinal lt_1_T.
rewrite /esn_collect (getrow_ord Z o1) /= (setrow_ord _ o0) /=.
set x0 := (1 - alpha) *: _; set X0 := row_update 0 o0 x0.
pose P (t : nat) (X : 'M[F]_(T, Dx)) :=
  row o0 X = x0 /\
  forall i j : 'I_T, j = i.+1 :> nat -> (j < t)%N ->
    row j X = esn_collect_update tanh A C zeta alpha (row i X) (row j Z).
set body := fun (t : nat) (X : 'M[F]_(T, Dx)) => _.
have [||X -> [X_0 X_rec]] := @for_range_inv _ P 1 T body X0 lt_0_T.
- split; first exact: row_update_same.
  by move=> i j ->.
- move=> t X /andP[lt_0_t lt_t_T] [X_0 X_rec].
  have lt_p_T : (t.-1 < T)%N by rewrite prednK // ltnW.
  pose ot := Ordinal lt_t_T; pose op := Ordinal lt_p_T.
  rewrite /body predz // (getrow_ord X op) /= (getrow_ord Z ot) /=.
  rewrite (setrow_ord X ot).
  eexists; first by [].
  split.
    by rewrite row_update_other // -val_eqE /= eq_sym -lt0n.
  move=> i j eq_j; rewrite ltnS leq_eqVlt => /orP[/eqP eq_jt|lt_j_t].
    have -> : j = ot by apply: val_inj.
    have -> : i = op by apply: val_inj; rewrite /= -eq_jt eq_j.
    rewrite row_update_same row_update_other //.
    by rewrite -val_eqE /= -{2}(prednK lt_0_t) neq_ltn ltnSn.
  have ne_jt : j != ot by rewrite -val_eqE /= neq_ltn lt_j_t.
  have ne_it : i != ot.
    by rewrite -val_eqE /= neq_ltn (ltn_trans _ lt_j_t) // eq_j.
  by rewrite !row_update_other //; apply: X_rec.
exists X => //; split=> [i0 i1 eq_i0 eq_i1|i j eq_j].
  have -> : i0 = o0 by apply: val_inj.
  by have -> : i1 = o1 by apply: val_inj.
by apply: X_rec.
Qed.

End CollectFacts.

Section CollectClaims.

Variables (F : realFieldType) (tanh : F -> F) (Dx Dz : nat).
Implicit Types (A : 'M[F]_Dx) (C : 'M[F]_(Dx, Dz)) (zeta : 'rV[F]_Dx).
Implicit Types (alpha : F).

(** C10: on an input sequence of length exactly 1 the state collector
    returns no trajectory: the bootstrap line reads [Z[1,:]], index 1 is out
    of range, and the call ends in [IndexError].  A trajectory is returned
    exactly for the sequences of length at least 2. *)
Theorem esn_collect_length_one_raises :
  (forall (Z : 'M[F]_(1, Dz)) A C zeta alpha,
      getrow Z 1 = Raise IndexError
      /\ esn_collect tanh Z A C zeta alpha = Raise IndexError)
  /\ (forall (T : nat) (Z : 'M[F]_(T, Dz)) A C zeta alpha,
      (exists X, esn_collect tanh Z A C zeta alpha = Ok X) <-> (1 < T)%N).
Proof.
split=> [Z A C zeta alpha|T Z A C zeta alpha].
  by split; [exact: getrow_oob | exact: esn_collect_short].
split=> [[X]|lt_1_T]; last first.
  by have [X -> _] := esn_collect_ok tanh Z A C zeta alpha lt_1_T; exists X.
by case: (ltnP 1 T) => // lt_T_2; rewrite esn_collect_short.
Qed.

(** C2: on a sequence of length 1 [esn_collect] raises [IndexError] instead
    of returning one state; on a sequence of length [T >= 2] it returns [T]
    states, and every state after the first is
    [alpha * X[t-1] + (1 - alpha) * tanh(A @ X[t-1] + C @ Z[t] + zeta)]. *)
Theorem esn_collect_trajectory :
  (forall (Z : 'M[F]_(1, Dz)) A C zeta alpha,
      esn_collect tanh Z A C zeta alpha = Raise IndexError)
  /\ (forall (T : nat) (Z : 'M[F]_(T.+2, Dz)) A C zeta alpha,
      exists2 X : 'M[F]_(T.+2, Dx),
        esn_collect tanh Z A C zeta alpha = Ok X
      & forall t' t : 'I_T.+2, t = t'.+1 :> nat ->
          row t X = alpha *: row t' X
                    + (1 - alpha) *: map_mx tanh (matvec A (row t' X)
                                                  + matvec C (row t Z) + zeta)).
Proof.
split=> [Z A C zeta alpha|T Z A C zeta alpha]; first exact: esn_collect_short.
have [//|X eq_X [_ X_rec]] := esn_collect_ok tanh Z A C zeta alpha.
by exists X.
Qed.

End CollectClaims.

Section CollectBootstrap.

Variables (F : realFieldType) (tanh : F -> F).

(** On the two inputs [[0.], [1.]] with [A = [[0.]]], [C = [[1.]]],
    [zeta = [0.]] and [alpha = 0.], the first state is [tanh(1)], where the
    bootstrap formula with [Z[0]] gives [tanh(0)]. *)
Lemma esn_collect_Z01 :
  exists2 X : 'M[F]_(2, 1),
    esn_collect tanh (Z01 F) 0 1%:M 0 0 = Ok X
  & X 0 0 = tanh 1
    /\ ((1 - 0) *: map_mx tanh (matvec 1%:M (row 0 (Z01 F)) + 0)) 0 0 = tanh 0.
Proof.
have [//|X eq_X [X_0 _]] := esn_collect_ok tanh (Z01 F) 0 1%:M 0 0.
exists X => //; split.
  have /rowP/(_ 0) := X_0 0 1 (erefl _) (erefl _).
  by rewrite /matvec mul1mx trmxK !mxE subr0 mul1r addr0.
by rewrite /matvec mul1mx trmxK !mxE subr0 mul1r addr0.
Qed.

End CollectBootstrap.

(** C1: over the reals, with [Z = [[0.], [1.]]], [A = [[0.]]],
    [C = [[1.]]], [zeta = [0.]] and [alpha = 0.], the first state that
    [esn_collect] returns is [tanh(1)], computed from [Z[1]]; it is not the
    [(1 - alpha) * tanh(C @ Z[0] + zeta)] of the specification, which is
    [tanh(0)]. *)
Theorem esn_collect_bootstrap_reads_Z1 :
  exists2 X : 'M[R]_(2, 1),
    esn_collect tanh (Z01 R) 0 1%:M 0 0 = Ok X
  & [/\ X 0 0 = tanh 1,
        ((1 - 0) *: map_mx tanh (matvec 1%:M (row 0 (Z01 R)) + 0)) 0 0 = tanh 0
      & X 0 0
        <> ((1 - 0) *: map_mx tanh (matvec 1%:M (row 0 (Z01 R)) + 0)) 0 0].
Proof.
have [X eq_X [X_00 spec_00]] := esn_collect_Z01 tanh.
exists X => //; split=> //.
by rewrite X_00 spec_00; apply: tanh1_neq_tanh0.
Qed.

(** ** Boundedness of the collected states *)

Section CollectBounded.

Variables (F : realFieldType) (tanh : F -> F) (Dx Dz : nat).
Implicit Types (A : 'M[F]_Dx) (C : 'M[F]_(Dx, Dz)) (zeta : 'rV[F]_Dx).
Implicit Types (alpha : F).

Lemma convex_in_unit (alpha x y : F) :
  0 <= alpha <= 1 -> `|x| <= 1 -> `|y| <= 1 ->
  `|alpha * x + (1 - alpha) * y| <= 1.
Proof.
case/andP=> ge0_a le_a_1 le_x le_y.
have ge0_1a : 0 <= 1 - alpha by rewrite subr_ge0.
apply: le_trans (ler_normD _ _) _.
rewrite !normrM (ger0_norm ge0_a) (ger0_norm ge0_1a).
by rewrite -[leRHS](subrKC alpha); apply: lerD; apply: ler_piMr.
Qed.

(** C6: with [0 <= alpha <= 1] and a squashing function with values in
    [[-1, 1]], as [tanh] is, every entry of every state that
    [esn_collect] returns lies in [[-1, 1]]; the only inputs without a
    trajectory are the sequences shorter than 2. *)
Theorem esn_collect_bounded (T : nat) (Z : 'M[F]_(T, Dz)) A C zeta alpha :
  (forall x, `|tanh x| <= 1) -> 0 <= alpha <= 1 ->
  match esn_collect tanh Z A C zeta alpha with
  | Ok X => forall t j, -1 <= X t j <= 1
  | Raise _ => (T < 2)%N
  end.
Proof.
move=> tanh_le1 alpha01.
case: (ltnP T 2) => [lt_T_2|lt_1_T]; first by rewrite esn_collect_short.
have [X -> [X_0 X_rec]] := esn_collect_ok tanh Z A C zeta alpha lt_1_T.
move=> t j; rewrite -ler_norml.
have [k eq_k] : exists k : nat, t = k :> nat by exists t.
elim: k t eq_k j => [|k IHk] t eq_k j.
  have /rowP/(_ j) := X_0 t (Ordinal lt_1_T) eq_k (erefl _).
  rewrite !mxE => ->.
  rewrite -[X in `|X|]add0r -(mulr0 alpha).
  by apply: convex_in_unit => //; rewrite normr0.
have lt_k_T : (k < T)%N by rewrite ltnW // -eq_k.
have /rowP/(_ j) := X_rec (Ordinal lt_k_T) t eq_k.
rewrite !mxE => ->.
by apply: convex_in_unit => //; apply: IHk.
Qed.

End CollectBounded.

(** ** Autonomous forecasting *)

Section AutoFacts.

Variables (F : realFieldType) (tanh : F -> F) (Dx Dz : nat).
Implicit Types (A : 'M[F]_Dx) (C : 'M[F]_(Dx, Dz)) (zeta : 'rV[F]_Dx).
Implicit Types (alpha : F) (W : 'M[F]_(Dx, Dz)).

(** A horizon of 0 leaves no row for [Xh[0,:] = X0]. *)
Lemma esn_auto_horizon0 (X0 : 'rV[F]_Dx) A C zeta alpha W :
  esn_auto tanh X0 0 A C zeta alpha W = Raise IndexError.
Proof. by rewrite /esn_auto /setrow py_index_oob. Qed.

Lemma esn_auto_ok (X0 : 'rV[F]_Dx) (h : nat) A C zeta alpha W :
  (0 < h)%N ->
  exists2 st : 'M[F]_(h, Dx) * 'M[F]_(h, Dz),
    esn_auto tanh X0 h A C zeta alpha W = Ok st
  & [/\ forall i0 : 'I_h, i0 = 0%N :> nat -> row i0 st.1 = X0,
        forall i0 : 'I_h, i0 = 0%N :> nat -> row i0 st.2 = X0 *m W,
        forall i j : 'I_h, j = i.+1 :> nat ->
          row j st.1
          = esn_auto_update tanh (A + C *m W^T) zeta alpha (row i st.1)
      & forall j : 'I_h, row j st.2 = row j st.1 *m W].
Proof.
move=> lt_0_h; pose o0 := Ordinal lt_0_h.
rewrite /esn_auto (setrow_ord _ o0) /= (setrow_ord _ o0) /=.
set R := A + _; set Xh0 := row_update 0 o0 X0.
set Yh0 := row_update 0 o0 (X0 *m W).
pose P (t : nat) (st : 'M[F]_(h, Dx) * 'M[F]_(h, Dz)) :=
  [/\ row o0 st.1 = X0, row o0 st.2 = X0 *m W,
      forall i j : 'I_h, j = i.+1 :> nat -> (j < t)%N ->
        row j st.1 = esn_auto_update tanh R zeta alpha (row i st.1)
    & forall j : 'I_h, (j < t)%N -> row j st.2 = row j st.1 *m W].
set body := fun (t : nat) (st : 'M[F]_(h, Dx) * 'M[F]_(h, Dz)) => _.
have [||st -> [X_0 Y_0 X_rec Y_out]] :=
  @for_range_inv _ P 1 h body (Xh0, Yh0) lt_0_h.
- split; rewrite /= ?row_update_same //; first by move=> i j ->.
  move=> j; rewrite ltnS leqn0 => /eqP eq_j.
  by have -> : j = o0; [apply: val_inj | rewrite !row_update_same].
- move=> t [Xh Yh] /andP[lt_0_t lt_t_h] [/= X_0 Y_0 X_rec Y_out].
  have lt_p_h : (t.-1 < h)%N by rewrite prednK // ltnW.
  pose ot := Ordinal lt_t_h; pose op := Ordinal lt_p_h.
  rewrite /body /= predz // (getrow_ord Xh op) /= (setrow_ord Xh ot) /=.
  rewrite (getrow_ord _ ot) /= (setrow_ord Yh ot) /= row_update_same.
  eexists; first by [].
  have ne_0t : o0 != ot by rewrite -val_eqE /= eq_sym -lt0n.
  have ne_pt : op != ot.
    by rewrite -val_eqE /= -{2}(prednK lt_0_t) neq_ltn ltnSn.
  split; rewrite /= ?row_update_other //.
    move=> i j eq_j; rewrite ltnS leq_eqVlt => /orP[/eqP eq_jt|lt_j_t].
      have -> : j = ot by apply: val_inj.
      have -> : i = op by apply: val_inj; rewrite /= -eq_jt eq_j.
      by rewrite row_update_same row_update_other.
    have ne_jt : j != ot by rewrite -val_eqE /= neq_ltn lt_j_t.
    have ne_it : i != ot.
      by rewrite -val_eqE /= neq_ltn (ltn_trans _ lt_j_t) // eq_j.
    by rewrite !row_update_other //; apply: X_rec.
  move=> j; rewrite ltnS leq_eqVlt => /orP[/eqP eq_jt|lt_j_t].
    by have -> : j = ot; [apply: val_inj | rewrite !row_update_same].
  have ne_jt : j != ot by rewrite -val_eqE /= neq_ltn lt_j_t.
  by rewrite !row_update_other //; apply: Y_out.
exists st => //; split=> [i0 eq_i0|i0 eq_i0|i j eq_j|j].
- by have -> : i0 = o0 by apply: val_inj.
- by have -> : i0 = o0 by apply: val_inj.
- exact: X_rec.
- exact: Y_out.
Qed.

End AutoFacts.

Section AutoClaims.

Variables (F : realFieldType) (tanh : F -> F) (Dx Dz : nat).
Implicit Types (A : 'M[F]_Dx) (C : 'M[F]_(Dx, Dz)) (zeta : 'rV[F]_Dx).
Implicit Types (alpha : F) (W : 'M[F]_(Dx, Dz)).

(** C4: for a horizon [h >= 1] (written [h.+1]) [esn_auto] returns [h]
    states and [h] outputs with [Xh[0] = X0], [Yh[0] = X0 @ W], and for
    [0 < t < h], with [R = A + C @ W.T],
    [Xh[t] = alpha * Xh[t-1] + (1 - alpha) * tanh(R @ Xh[t-1] + zeta)] and
    [Yh[t] = Xh[t] @ W]. *)
Theorem esn_auto_forecast (X0 : 'rV[F]_Dx) (h : nat) A C zeta alpha W :
  let R := A + C *m W^T in
  exists Xh : 'M[F]_(h.+1, Dx), exists Yh : 'M[F]_(h.+1, Dz),
    [/\ esn_auto tanh X0 h.+1 A C zeta alpha W = Ok (Xh, Yh),
        row 0 Xh = X0,
        row 0 Yh = X0 *m W
      & forall t' t : 'I_h.+1, t = t'.+1 :> nat ->
          row t Xh = alpha *: row t' Xh
                     + (1 - alpha) *: map_mx tanh (matvec R (row t' Xh) + zeta)
          /\ row t Yh = row t Xh *m W].
Proof.
move=> R.
have [//|[Xh Yh] eq_st [/= X_0 Y_0 X_rec Y_out]] :=
  esn_auto_ok tanh X0 A C zeta alpha W (h := h.+1).
exists Xh, Yh; split=> //; [exact: X_0 | exact: Y_0 | move=> t' t eq_t].
by split; [exact: X_rec | exact: Y_out].
Qed.

Lemma matvec_fold A C W (x : 'rV[F]_Dx) :
  matvec (A + C *m W^T) x = matvec A x + matvec C (x *m W).
Proof. by rewrite /matvec mulmxDl -mulmxA -trmx_mul linearD. Qed.

(** C5: a forecast of horizon 1 from the seed [x] has first output
    [x @ W]; and one autonomous update from [x], with [R = A + C @ W.T], is
    the driven update of the state collector from [x] on the input
    [x @ W]. *)
Theorem esn_auto_matches_collect_at_seed (x : 'rV[F]_Dx) A C zeta alpha W :
  (exists Xh : 'M[F]_(1, Dx), exists Yh : 'M[F]_(1, Dz),
      esn_auto tanh x 1 A C zeta alpha W = Ok (Xh, Yh)
      /\ row 0 Yh = x *m W)
  /\ esn_auto_update tanh (A + C *m W^T) zeta alpha x
     = esn_collect_update tanh A C zeta alpha x (x *m W)
  /\ alpha *: x + (1 - alpha) *: map_mx tanh (matvec (A + C *m W^T) x + zeta)
     = alpha *: x
       + (1 - alpha) *: map_mx tanh (matvec A x + matvec C (x *m W) + zeta).
Proof.
split; last by rewrite /esn_auto_update /esn_collect_update matvec_fold.
have [//|[Xh Yh] eq_st [/= _ Y_0 _ _]] :=
  esn_auto_ok tanh x A C zeta alpha W (h := 1).
by exists Xh, Yh; split=> //; apply: Y_0.
Qed.

End AutoClaims.

(** ** The ridge readout *)

Section SquaredNorm.

Variable F : realFieldType.

Lemma sqnormE (n : nat) (v : 'rV[F]_n) : (v *m v^T) 0 0 = sqnorm v.
Proof. by rewrite mxE; apply: eq_bigr => j _; rewrite mxE expr2. Qed.

Lemma sqnorm_ge0 (n : nat) (v : 'rV[F]_n) : 0 <= sqnorm v.
Proof. by apply: sumr_ge0 => j _; rewrite sqr_ge0. Qed.

Lemma sqnorm_eq0 (n : nat) (v : 'rV[F]_n) : sqnorm v = 0 -> v = 0.
Proof.
move=> /eqP; rewrite /sqnorm psumr_eq0 => [j _|/allP sq0]; first exact: sqr_ge0.
apply/rowP => j; rewrite mxE; apply/eqP.
by have := sq0 j; rewrite mem_index_enum /= sqrf_eq0; apply.
Qed.

(** The matrix of the ridge system is invertible as soon as the penalty is
    positive: [v (S^T S + c I) v^T = |S v^T|^2 + c |v|^2]. *)
Lemma ridge_matrix_unit (T K : nat) (S : 'M[F]_(T, K)) (c : F) :
  0 < c -> S^T *m S + c *: 1%:M \in unitmx.
Proof.
move=> gt0_c; rewrite -row_free_unit -kermx_eq0.
apply/eqP/row_matrixP => i; rewrite row0.
set v := row i _; apply: sqnorm_eq0.
have : v *m (S^T *m S + c *: 1%:M) *m v^T = 0.
  by rewrite /v -row_mul mulmx_ker row0 mul0mx.
rewrite mulmxDr mulmxDl -scalemxAr mulmx1 -scalemxAl.
rewrite mulmxA -mulmxA -{2}[S]trmxK -trmx_mul => /matrixP/(_ 0 0).
rewrite mxE [X in _ + X]mxE [RHS]mxE !sqnormE.
move=> /eqP; rewrite paddr_eq0 ?sqnorm_ge0 ?mulr_ge0 ?sqnorm_ge0 1?ltW //.
by case/andP=> _; rewrite mulf_eq0 gt_eqF //= => /eqP.
Qed.

(** A state matrix with two identical columns has a singular Gram
    matrix. *)
Lemma gram_identical_columns (T K : nat) (S : 'M[F]_(T, K)) (i j : 'I_K) :
  i != j -> col i S = col j S -> S^T *m S \notin unitmx.
Proof.
move=> ne_ij eq_col; pose v : 'rV[F]_K := delta_mx 0 i - delta_mx 0 j.
have ne0_v : v != 0.
  apply/eqP => /rowP/(_ i); rewrite !mxE !eqxx /= (negPf ne_ij) subr0.
  by move/eqP; rewrite oner_eq0.
have vS : v *m S^T = 0.
  by rewrite mulmxBl -!rowE -!tr_col eq_col subrr.
apply/negP => unit_G; case/eqP: ne0_v.
by rewrite -(mulmxK unit_G v) mulmxA vS !mul0mx.
Qed.

End SquaredNorm.

Section FitClaims.

Variables (F : realFieldType) (tanh : F -> F) (Dx Dz : nat).
Implicit Types (A : 'M[F]_Dx) (C : 'M[F]_(Dx, Dz)) (zeta : 'rV[F]_Dx).
Implicit Types (alpha L : F).

Lemma solve_unit (n p : nat) (M : 'M[F]_n) (B : 'M[F]_(n, p)) :
  M \in unitmx -> solve M B = Ok (invmx M *m B).
Proof. by rewrite /solve => ->. Qed.

Lemma solve_singular (n p : nat) (M : 'M[F]_n) (B : 'M[F]_(n, p)) :
  M \notin unitmx -> solve M B = Raise LinAlgError.
Proof. by rewrite /solve => /negPf ->. Qed.

(** C3: when the ridge system is solvable, [esn_fit] returns weights [W]
    with [(S^T S + T*L*I) W = S^T Y], that is
    [W = (S^T S + T*L*I)^-1 S^T Y], the fitted values [S @ W] and the
    residuals [Y - S @ W], where [S] is the matrix of collected states and
    [T] its number of rows. *)
Theorem esn_fit_ridge (T Dy : nat) (Y : 'M[F]_(T, Dy)) (Z : 'M[F]_(T, Dz))
    L A C zeta alpha (S : 'M[F]_(T, Dx)) :
  esn_collect tanh Z A C zeta alpha = Ok S ->
  S^T *m S + (T%:R * L) *: 1%:M \in unitmx ->
  exists W : 'M[F]_(Dx, Dy),
    [/\ esn_fit tanh Y Z L A C zeta alpha = Ok (W, S, S *m W, Y - S *m W),
        (S^T *m S + (T%:R * L) *: 1%:M) *m W = S^T *m Y
      & W = invmx (S^T *m S + (T%:R * L) *: 1%:M) *m (S^T *m Y)].
Proof.
move=> eq_S unit_M; rewrite /esn_fit eq_S /= solve_unit //=.
by eexists; split; [reflexivity | rewrite mulKVmx | reflexivity].
Qed.

(** C8: with the penalty 0 and a singular Gram matrix [S^T S], as when
    two columns of [S] are identical, the solve raises [LinAlgError] and
    [esn_fit] returns no weights; with a penalty [L > 0] the solve succeeds
    and the weights it returns are the only solution of the ridge system. *)
Theorem esn_fit_singular_or_unique (T Dy : nat) (Y : 'M[F]_(T, Dy))
    (Z : 'M[F]_(T, Dz)) A C zeta alpha (S : 'M[F]_(T, Dx)) :
  esn_collect tanh Z A C zeta alpha = Ok S ->
  [/\ S^T *m S \notin unitmx ->
        esn_fit tanh Y Z 0 A C zeta alpha = Raise LinAlgError,
      forall i j : 'I_Dx, i != j -> col i S = col j S ->
        esn_fit tanh Y Z 0 A C zeta alpha = Raise LinAlgError
    & forall L, 0 < L ->
        exists2 W : 'M[F]_(Dx, Dy),
          esn_fit tanh Y Z L A C zeta alpha = Ok (W, S, S *m W, Y - S *m W)
        & (S^T *m S + (T%:R * L) *: 1%:M) *m W = S^T *m Y
          /\ forall W' : 'M[F]_(Dx, Dy),
               (S^T *m S + (T%:R * L) *: 1%:M) *m W' = S^T *m Y -> W' = W].
Proof.
move=> eq_S.
have raises : S^T *m S \notin unitmx ->
    esn_fit tanh Y Z 0 A C zeta alpha = Raise LinAlgError.
  by move=> sing_G; rewrite /esn_fit eq_S /= mulr0 scale0r addr0 solve_singular.
split=> [//|i j ne_ij eq_col|L gt0_L].
  exact: raises (gram_identical_columns ne_ij eq_col).
have gt0_T : (0 < T)%N.
  case: (ltnP 0 T) => // le_T_0; move: eq_S.
  by rewrite esn_collect_short // (leq_ltn_trans le_T_0).
have unit_M : S^T *m S + (T%:R * L) *: 1%:M \in unitmx.
  by apply: ridge_matrix_unit; rewrite mulr_gt0 // ltr0n.
rewrite /esn_fit eq_S /= solve_unit //=.
eexists; first by [].
split=> [|W' eq_W']; first by rewrite mulKVmx.
by rewrite -eq_W' mulKmx.
Qed.

End FitClaims.

(** ** Normalisation of the reservoir matrices *)

Section NormalizeClaims.

Variable F : realFieldType.

Lemma sqnormZ (n : nat) (k : F) (v : 'rV[F]_n) :
  sqnorm (k *: v) = k ^+ 2 * sqnorm v.
Proof.
rewrite /sqnorm mulr_sumr; apply: eq_bigr => j _.
by rewrite mxE exprMn.
Qed.

Lemma esn_plot_normalizeE (m n : nat) (M : 'M[F]_(m, n)) (s rho : F) :
  esn_plot_normalize M s rho = (rho / s) *: M.
Proof.
by apply/matrixP => i j; rewrite !mxE [LHS]mulrC mulrA [RHS]mulrAC.
Qed.

Lemma matvecZ (m n : nat) (k : F) (M : 'M[F]_(m, n)) (v : 'rV[F]_n) :
  matvec (k *: M) v = k *: matvec M v.
Proof. by rewrite /matvec -scalemxAl linearZ. Qed.

(** Dividing a matrix by its operator 2-norm and multiplying by a positive
    target gives a matrix whose operator 2-norm is the target. *)
Lemma is_norm2_normalize (m n : nat) (M : 'M[F]_(m, n)) (s rho : F) :
  is_norm2 M s -> s != 0 -> 0 < rho ->
  is_norm2 (esn_plot_normalize M s rho) rho.
Proof.
case=> ge0_s bound_s least_s ne0_s gt0_rho.
have gt0_s : 0 < s by rewrite lt_def ne0_s.
have gt0_k : 0 < rho / s by rewrite divr_gt0.
rewrite esn_plot_normalizeE; set k := rho / s in gt0_k *.
have eq_rho : rho = k * s by rewrite /k divfK.
split=> [|v|c ge0_c bound_c]; first exact: ltW.
  by rewrite matvecZ sqnormZ eq_rho exprMn -mulrA ler_wpM2l ?sqr_ge0.
rewrite eq_rho -ler_pdivlMl //.
apply: least_s => [|v]; first by rewrite mulr_ge0 // invr_ge0 ltW.
have := bound_c v; rewrite matvecZ sqnormZ => bound.
by rewrite exprMn exprVn -mulrA ler_pdivlMl ?exprn_gt0.
Qed.

(** The operator 2-norm of a 1 x 1 matrix is the absolute value of its
    entry. *)
Lemma is_norm2_scalar (a : F) : is_norm2 (a%:M : 'M[F]_1) `|a|.
Proof.
have matvec_a (v : 'rV[F]_1) : matvec a%:M v = a *: v.
  by rewrite /matvec mul_scalar_mx linearZ /= trmxK.
split=> [|v|c ge0_c bound_c]; first exact: normr_ge0.
  by rewrite matvec_a sqnormZ real_normK ?num_real.
have := bound_c (const_mx 1); rewrite matvec_a sqnormZ.
have -> : sqnorm (const_mx 1 : 'rV[F]_1) = 1.
  by rewrite /sqnorm big_ord1 mxE expr1n.
by rewrite !mulr1 -[a ^+ 2]real_normK ?num_real // ler_pXn2r // nnegrE.
Qed.

(** C7: if the draws [A] and [C] have the non-zero operator 2-norms [nA]
    and [nC], and the targets [rho] and [gamma] are positive, then
    [(A / nA) * rho] has operator 2-norm [rho] and [(C / nC) * gamma] has
    operator 2-norm [gamma]. *)
Theorem esn_plot_normalized_norms (Dx Dz : nat) (A : 'M[F]_Dx)
    (C : 'M[F]_(Dx, Dz)) (nA nC rho gamma : F) :
  is_norm2 A nA -> nA != 0 -> is_norm2 C nC -> nC != 0 ->
  0 < rho -> 0 < gamma ->
  is_norm2 (esn_plot_normalize A nA rho) rho
  /\ is_norm2 (esn_plot_normalize C nC gamma) gamma.
Proof.
move=> norm_A ne0_nA norm_C ne0_nC gt0_rho gt0_gamma.
by split; apply: is_norm2_normalize.
Qed.

End NormalizeClaims.

(** ** The Mackey-Glass integrator *)

Section MackeyGlassFacts.

Variables (F : archiRealFieldType) (fpow : F -> F -> F).
Implicit Types (beta gamma n tau a delta_t : F).

Lemma delay_index_subn (q : F) (t : nat) :
  0 <= q -> delay_index q t = Posz (t - delay_steps q).
Proof.
move=> ge0_q; rewrite /delay_index /int_of_float /delay_steps ge0_q.
have := ge0_q; rewrite -floor_ge0 => /gez0_abs eq_k.
rewrite -{1}eq_k; case: (leqP `|Num.floor q| t) => [le_k_t|lt_t_k].
  by rewrite subzn // max_l.
rewrite max_r; first by rewrite subr_le0 lez_nat ltnW.
by move: (ltnW lt_t_k); rewrite -subn_eq0 => /eqP ->.
Qed.

Lemma delay_steps_gt0 (q : F) : 1 <= q -> (0 < delay_steps q)%N.
Proof.
move=> ge1_q; rewrite /delay_steps absz_gt0.
have : (1 : int) <= Num.floor q by rewrite floor_ge_int.
by case: (Num.floor _) => // [[]].
Qed.

Lemma py_div_pos (x y : F) : 0 < y -> py_div x y = Ok (x / y).
Proof. by move=> gt0_y; rewrite /py_div gt_eqF. Qed.

(** What [mackey_glass] computes for a delay [tau >= 0]: [x] is the array
    before the final scaling, [k] the number of steps of the delay. *)
Lemma mackey_glass_ok beta gamma n tau a delta_t (num_steps : nat) :
  0 <= tau -> 0 < delta_t -> (0 < num_steps)%N ->
  exists2 x : 'rV[F]_num_steps,
    mackey_glass fpow beta gamma n tau a delta_t num_steps = Ok (a *: x)
  & (forall i0 : 'I_num_steps, i0 = 0%N :> nat -> x 0 i0 = 1 / 2)
    /\ (forall t' t d : 'I_num_steps, t = t'.+1 :> nat ->
          d = (t - delay_steps (tau / delta_t))%N :> nat ->
          x 0 t = mackey_glass_update fpow beta gamma n delta_t (x 0 t')
                    (if (d < t)%N then x 0 d else 0)).
Proof.
move=> ge0_tau gt0_dt gt0_N; pose o0 := Ordinal gt0_N.
have ge0_q : 0 <= tau / delta_t by rewrite divr_ge0 // ltW.
set k := delay_steps (tau / delta_t).
rewrite /mackey_glass (setitem_ord _ o0) /=.
set x0 := item_update 0 o0 (1 / 2).
pose P (t : nat) (x : 'rV[F]_num_steps) :=
  [/\ x 0 o0 = 1 / 2,
      forall j : 'I_num_steps, (t <= j)%N -> x 0 j = 0
    & forall t' j d : 'I_num_steps, j = t'.+1 :> nat -> (j < t)%N ->
        d = (j - k)%N :> nat ->
        x 0 j = mackey_glass_update fpow beta gamma n delta_t (x 0 t')
                  (if (d < j)%N then x 0 d else 0)].
set body := fun (t : nat) (x : 'rV[F]_num_steps) => _.
have [||x -> [x_0 _ x_rec]] := @for_range_inv _ P 1 num_steps body x0 gt0_N.
- split; first exact: item_update_same.
    move=> j lt_0_j; rewrite item_update_other ?mxE //.
    by rewrite -val_eqE /= -lt0n.
  by move=> t' j d ->.
- move=> t x /andP[lt_0_t lt_t_N] [x_0 x_new x_rec].
  have lt_p_N : (t.-1 < num_steps)%N by rewrite prednK // ltnW.
  have lt_d_N : (t - k < num_steps)%N by apply: leq_ltn_trans lt_t_N; apply: leq_subr.
  pose ot := Ordinal lt_t_N; pose op := Ordinal lt_p_N.
  pose od := Ordinal lt_d_N.
  rewrite /body py_div_pos //= delay_index_subn // predz //.
  rewrite (getitem_ord x op) /=.
  rewrite (getitem_ord x od) /= (setitem_ord x ot).
  eexists; first by [].
  have ne_pt : op != ot.
    by rewrite -val_eqE /= -{2}(prednK lt_0_t) neq_ltn ltnSn.
  split=> [|j lt_t_j|t' j d eq_j].
  - by rewrite item_update_other // -val_eqE /= eq_sym -lt0n.
  - rewrite item_update_other ?x_new 1?ltnW //.
    by rewrite -val_eqE /= neq_ltn lt_t_j orbT.
  rewrite ltnS leq_eqVlt => /orP[/eqP eq_jt|lt_j_t] eq_d.
    have -> : j = ot by apply: val_inj.
    have -> : t' = op by apply: val_inj; rewrite /= -eq_jt eq_j.
    have -> : d = od by apply: val_inj; rewrite /= -eq_jt.
    rewrite item_update_same (@item_update_other _ _ _ _ op) //.
    congr (mackey_glass_update _ _ _ _ _ _ _).
    rewrite /= ltn_neqAle leq_subr andbT.
    case: (eqVneq (t - k)%N t) => [eq_dt|ne_dt] /=.
      by apply: x_new; rewrite /= eq_dt.
    by rewrite item_update_other.
  have ne_jt : j != ot by rewrite -val_eqE /= neq_ltn lt_j_t.
  have ne_t't : t' != ot.
    by rewrite -val_eqE /= neq_ltn (ltn_trans _ lt_j_t) // eq_j.
  rewrite (@item_update_other _ _ _ _ j) // (@item_update_other _ _ _ _ t') //.
  rewrite (x_rec t' j d) //.
  case: ifP => // lt_d_j; rewrite item_update_other //.
  by rewrite -val_eqE /= neq_ltn (ltn_trans lt_d_j lt_j_t).
exists x => //; split=> [i0 eq_i0|t' t d eq_t eq_d].
  by have -> : i0 = o0 by apply: val_inj.
exact: x_rec.
Qed.

End MackeyGlassFacts.

Section MackeyGlassClaims.

Variables (F : archiRealFieldType) (fpow : F -> F -> F).
Implicit Types (beta gamma n tau a delta_t : F).

(** C9, amended: for a delay [tau >= 0] and a step [delta_t > 0],
    [mackey_glass] returns [a * x] with [x[0] = 0.5] and, at every step
    [0 < t < num_steps], the forward Euler update
    [x[t] = x[t-1] + delta_t * (beta * v / (1 + v ** n) - gamma * x[t-1])],
    where [v] is the entry read at the index
    [d = max(t - int(tau / delta_t), 0)], with [int] truncating toward zero:
    [v = x[d]] if [d < t], which is always so when [tau >= delta_t], and
    [v = 0], the entry not yet written, if [d = t].  Only a step count of
    0 raises an exception. *)
Theorem mackey_glass_euler beta gamma n tau a delta_t (num_steps : nat) :
  0 <= tau -> 0 < delta_t ->
  match mackey_glass fpow beta gamma n tau a delta_t num_steps with
  | Ok y =>
      exists2 x : 'rV[F]_num_steps, y = a *: x
      & (forall i0 : 'I_num_steps, i0 = 0%N :> nat -> x 0 i0 = 1 / 2)
        /\ (forall t' t : 'I_num_steps, t = t'.+1 :> nat ->
            exists d : 'I_num_steps,
              [/\ Posz d = delay_index (tau / delta_t) t,
                  (d <= t)%N,
                  delta_t <= tau -> (d < t)%N
                & let v := if (d < t)%N then x 0 d else 0 in
                  x 0 t = x 0 t' + delta_t * (beta * v / (1 + fpow v n)
                                              - gamma * x 0 t')])
  | Raise _ => num_steps = 0%N
  end.
Proof.
move=> ge0_tau gt0_dt.
case: (posnP num_steps) => [eq_N|gt0_N].
  by rewrite /mackey_glass /setitem py_index_oob // eq_N.
have [x -> [x_0 x_rec]] :=
  mackey_glass_ok fpow beta gamma n a ge0_tau gt0_dt gt0_N.
exists x => //; split=> // t' t eq_t.
have lt_d_N : (t - delay_steps (tau / delta_t) < num_steps)%N.
  exact: leq_ltn_trans (leq_subr _ _) (ltn_ord t).
exists (Ordinal lt_d_N); split=> [||le_dt_tau|].
- by rewrite delay_index_subn // divr_ge0 // ltW.
- exact: leq_subr.
- by rewrite /= eq_t ltn_subrL delay_steps_gt0 // ler_pdivlMr // mul1r.
- exact: (x_rec t' t (Ordinal lt_d_N) eq_t (erefl _)).
Qed.

End MackeyGlassClaims.

(** ** The theorems at work over the rationals *)

Lemma esn_collect_alpha1 (F : realFieldType) (tanh : F -> F) (Dx Dz T : nat)
    (Z : 'M[F]_(T, Dz)) (A : 'M[F]_Dx) (C : 'M[F]_(Dx, Dz)) (zeta : 'rV[F]_Dx) :
  (1 < T)%N -> esn_collect tanh Z A C zeta 1 = Ok 0.
Proof.
move=> lt_1_T.
have [X -> [X_0 X_rec]] := esn_collect_ok tanh Z A C zeta 1 lt_1_T.
congr Ok; apply/row_matrixP => t; rewrite row0.
have [k eq_k] : exists k : nat, t = k :> nat by exists t.
elim: k t eq_k => [|k IHk] t eq_k.
  by rewrite (X_0 t (Ordinal lt_1_T)) // subrr scale0r.
have lt_k_T : (k < T)%N by rewrite ltnW // -eq_k.
rewrite (X_rec (Ordinal lt_k_T) t) // /esn_collect_update IHk //.
by rewrite subrr scale0r scaler0 addr0.
Qed.

Lemma half_in_unit (F : realFieldType) : 0 <= (1 / 2 : F) <= 1.
Proof.
by rewrite divr_ge0 ?ler01 ?ler0n //= ler_pdivrMr ?ltr0n // mul1r ler1n.
Qed.

(** [esn_collect_bounded] over the reals, on the two inputs [[0.], [1.]]
    with [alpha = 1/2]. *)
Lemma esn_collect_bounded_witness :
  (forall x, `|tanh x| <= 1) /\ (0 <= (1 / 2 : R) <= 1)
  /\ match esn_collect tanh (Z01 R) 0 1%:M 0 (1 / 2) with
     | Ok X => forall t j, -1 <= X t j <= 1
     | Raise _ => (2 < 2)%N
     end.
Proof.
have alpha01 : 0 <= (1 / 2 : R) <= 1 := half_in_unit R.
split; [exact: tanh_le1 | split; first exact: alpha01].
exact: (esn_collect_bounded (Z01 R) 0 1%:M 0 tanh_le1 alpha01).
Defined.

(** [esn_fit_ridge] over the reals, on the inputs [[0.], [1.]], the targets
    [[0.], [1.]] and the penalty 1. *)
Lemma esn_fit_ridge_witness :
  exists S : 'M[R]_(2, 1),
    [/\ esn_collect tanh (Z01 R) 0 1%:M 0 0 = Ok S,
        S^T *m S + (2%:R * 1) *: 1%:M \in unitmx
      & exists W : 'M[R]_1,
          [/\ esn_fit tanh (Z01 R) (Z01 R) 1 0 1%:M 0 0
              = Ok (W, S, S *m W, Z01 R - S *m W),
              (S^T *m S + (2%:R * 1) *: 1%:M) *m W = S^T *m Z01 R
            & W = invmx (S^T *m S + (2%:R * 1) *: 1%:M) *m (S^T *m Z01 R)]].
Proof.
have [S eq_S _] :=
  esn_collect_ok tanh (Z01 R) 0 1%:M 0 0 (isT : (1 < 2)%N).
have unit_M : S^T *m S + (2%:R * 1) *: 1%:M \in unitmx.
  by apply: ridge_matrix_unit; rewrite mulr1 ltr0n.
exists S; split; [exact: eq_S | exact: unit_M |].
exact: (esn_fit_ridge (Z01 R) eq_S unit_M).
Defined.

(** [esn_fit_singular_or_unique] over the reals, on states that are all
    zero ([alpha = 1]): without a penalty the solve raises, with the penalty 1 it
    returns the only solution. *)
Lemma esn_fit_singular_or_unique_witness :
  let S : 'M[R]_(2, 1) := 0 in
  [/\ esn_collect tanh (Z01 R) 0 1%:M 0 1 = Ok S,
      S^T *m S \notin unitmx,
      esn_fit tanh (Z01 R) (Z01 R) 0 0 1%:M 0 1 = Raise LinAlgError
    & exists2 W : 'M[R]_1,
        esn_fit tanh (Z01 R) (Z01 R) 1 0 1%:M 0 1
        = Ok (W, S, S *m W, Z01 R - S *m W)
      & (S^T *m S + (2%:R * 1) *: 1%:M) *m W = S^T *m Z01 R
        /\ forall W' : 'M[R]_1,
             (S^T *m S + (2%:R * 1) *: 1%:M) *m W' = S^T *m Z01 R ->
             W' = W].
Proof.
move=> S.
have eq_S : esn_collect tanh (Z01 R) 0 1%:M 0 1 = Ok S.
  exact: esn_collect_alpha1.
have sing_G : S^T *m S \notin unitmx.
  by rewrite mulmx0 unitmxE det0 unitr0.
have [raises _ unique] := esn_fit_singular_or_unique (Z01 R) eq_S.
split; [exact: eq_S | exact: sing_G | exact: raises | exact: unique].
Defined.

(** [esn_plot_normalized_norms] on the 1 x 1 draws [[[2.]]] and [[[3.]]]
    with the targets 5 and 7. *)
Lemma esn_plot_normalized_norms_witness :
  [/\ is_norm2 (2%:M : 'M[rat]_1) 2, (2 : rat) != 0,
      is_norm2 (3%:M : 'M[rat]_1) 3 & (3 : rat) != 0]
  /\ ((0 : rat) < 5 /\ (0 : rat) < 7)
  /\ (is_norm2 (esn_plot_normalize (2%:M : 'M[rat]_1) 2 5) 5
      /\ is_norm2 (esn_plot_normalize (3%:M : 'M[rat]_1) 3 7) 7).
Proof.
have norm_2 : is_norm2 (2%:M : 'M[rat]_1) 2.
  by have := is_norm2_scalar (2 : rat); rewrite ger0_norm.
have norm_3 : is_norm2 (3%:M : 'M[rat]_1) 3.
  by have := is_norm2_scalar (3 : rat); rewrite ger0_norm.
split; first by split.
split; first by split.
exact: (@esn_plot_normalized_norms rat 1 1 _ _ 2 3 5 7 norm_2 isT norm_3 isT
          isT isT).
Defined.

(** [mackey_glass_euler] on the parameters of the notebook,
    [mackey_glass(0.2, 0.1, 10, 25, 0.1, 0.2, .)], for 3 steps. *)
Lemma mackey_glass_euler_witness :
  (0 : rat) <= 25 /\ (0 : rat) < 1 / 5
  /\ match mackey_glass rat_pow (1 / 5) (1 / 10) 10 25 (1 / 10) (1 / 5) 3 with
     | Ok y =>
         exists2 x : 'rV[rat]_3, y = (1 / 10) *: x
         & (forall i0 : 'I_3, i0 = 0%N :> nat -> x 0 i0 = 1 / 2)
           /\ (forall t' t : 'I_3, t = t'.+1 :> nat ->
               exists d : 'I_3,
                 [/\ Posz d = delay_index (25 / (1 / 5) : rat) t,
                     (d <= t)%N,
                     (1 / 5 : rat) <= 25 -> (d < t)%N
                   & let v := if (d < t)%N then x 0 d else 0 in
                     x 0 t = x 0 t' + 1 / 5 * (1 / 5 * v / (1 + rat_pow v 10)
                                               - 1 / 10 * x 0 t')])
     | Raise _ => 3%N = 0%N
     end.
Proof.
have ge0_tau : (0 : rat) <= 25 by [].
have gt0_dt : (0 : rat) < 1 / 5 by [].
split; [exact: ge0_tau | split; first exact: gt0_dt].
exact: (mackey_glass_euler rat_pow (1 / 5) (1 / 10) 10 (1 / 10) 3 ge0_tau
          gt0_dt).
Defined.

(** [int] and [round] on a few floats, as Python computes them. *)
Example int_of_float_values :
  [/\ int_of_float (7 / 4 : rat) = 1, int_of_float (- (7 / 4) : rat) = -1,
      int_of_float (125 : rat) = 125 & int_of_float (0 : rat) = 0].
Proof. by split; vm_compute. Qed.

Example round_nearest_values :
  [/\ round_nearest (7 / 4 : rat) = 2, round_nearest (1 / 2 : rat) = 0,
      round_nearest (3 / 2 : rat) = 2 & round_nearest (- (7 / 4) : rat) = -2].
Proof. by split; vm_compute. Qed.

(** Where the specification of the delay and the code part: with [tau = 7]
    and [delta_t = 4] the quotient is 1.75, which [int] truncates to 1 and
    rounding takes to 2, so that step [t = 2] reads index 1 where the
    rounded delay gives index 0; and with the negative delay [tau = -1],
    [delta_t = 1], step [t = 1] of two reads index 2 and raises
    [IndexError]. *)
Lemma mackey_glass_delay_truncates :
  [/\ delay_index (7 / 4 : rat) 2 = 1,
      spec_delay_index (7 / 4 : rat) 2 = 0
    & mackey_glass rat_pow 1 1 1 (-1) 1 1 2 = Raise IndexError].
Proof.
split; try by vm_compute.
rewrite /mackey_glass (setitem_ord _ (ord0 : 'I_2)) /=.
rewrite for_range_step //= divr1 (getitem_ord _ (ord0 : 'I_2)) /=.
have -> : delay_index (-1 : rat) 1 = 2 by vm_compute.
by rewrite /getitem py_index_oob.
Qed.

(** * Further properties of the notebook *)

(** ** The Lorenz integrator *)

Section LorenzFacts.

Variables (F : realFieldType) (sigma rho beta delta_t : F).

Local Notation step := (lorenz_step sigma rho beta delta_t).
Local Notation lorenz_state := (lorenz_state sigma rho beta delta_t).

Lemma lorenz_attractorE (s : F * F * F) (n : nat) :
  lorenz_attractor sigma rho beta s delta_t n
  = ([seq (lorenz_state s k).1.1 | k <- iota 0 n.+1],
     [seq (lorenz_state s k).1.2 | k <- iota 0 n.+1],
     [seq (lorenz_state s k).2 | k <- iota 0 n.+1]).
Proof.
rewrite /lorenz_attractor; case: s => [[x y] z].
set body := fun st : F * F * F * (seq F * seq F * seq F) => _.
set s := (x, y, z).
suff -> : iter n body (s, ([:: x], [:: y], [:: z]))
          = (lorenz_state s n,
             ([seq (lorenz_state s k).1.1 | k <- iota 0 n.+1],
              [seq (lorenz_state s k).1.2 | k <- iota 0 n.+1],
              [seq (lorenz_state s k).2 | k <- iota 0 n.+1])) by [].
have bodyE st xs ys zs :
    body (st, (xs, ys, zs))
    = (step st, (rcons xs (step st).1.1, rcons ys (step st).1.2,
                 rcons zs (step st).2)).
  by rewrite /body; case: (step st) => [[x' y'] z'].
elim: n => [//|n IHn]; rewrite iterS IHn bodyE.
by rewrite -[n.+2]addn1 iotaD add0n !map_cat /= !cats1.
Qed.

Lemma lorenz_stateS (s : F * F * F) (k : nat) :
  lorenz_state s k.+1 = step (lorenz_state s k).
Proof. by []. Qed.

Lemma lorenz_stateD (s : F * F * F) (n k : nat) :
  lorenz_state s (n + k) = lorenz_state (lorenz_state s n) k.
Proof. by rewrite /lorenz_state addnC iterD. Qed.

Lemma lorenz_step_flip (x y z : F) :
  step (- x, - y, z)
  = (- (step (x, y, z)).1.1, - (step (x, y, z)).1.2, (step (x, y, z)).2).
Proof.
by rewrite /lorenz_step /=; congr (_, _, _); ring.
Qed.

Lemma lorenz_state_flip (x y z : F) (k : nat) :
  lorenz_state (- x, - y, z) k
  = (- (lorenz_state (x, y, z) k).1.1, - (lorenz_state (x, y, z) k).1.2,
     (lorenz_state (x, y, z) k).2).
Proof.
elim: k => [//|k IHk]; rewrite !lorenz_stateS IHk.
by case: (lorenz_state (x, y, z) k) => [[a b] c]; rewrite lorenz_step_flip.
Qed.

Lemma lorenz_state_zaxis (z : F) (k : nat) :
  lorenz_state (0, 0, z) k = (0, 0, (1 - delta_t * beta) ^+ k * z).
Proof.
elim: k => [|k IHk]; first by rewrite expr0 mul1r.
rewrite lorenz_stateS IHk /lorenz_step exprS; congr (_, _, _); ring.
Qed.

(** X1: [lorenz_attractor] returns three arrays of [num_steps + 1] entries
    that start at the initial state, and every later entry is one forward
    Euler step from the entry before it, the three increments being
    computed from the old [(x, y, z)]. *)
Theorem lorenz_attractor_euler (x0 y0 z0 : F) (num_steps : nat) :
  let tr := lorenz_attractor sigma rho beta (x0, y0, z0) delta_t num_steps in
  let xs := tr.1.1 in let ys := tr.1.2 in let zs := tr.2 in
  [/\ size xs = num_steps.+1 /\ size ys = num_steps.+1
      /\ size zs = num_steps.+1,
      (nth 0 xs 0, nth 0 ys 0, nth 0 zs 0) = (x0, y0, z0)
    & forall k, (k < num_steps)%N ->
        let x := nth 0 xs k in let y := nth 0 ys k in let z := nth 0 zs k in
        [/\ nth 0 xs k.+1 = x + delta_t * (sigma * (y - x)),
            nth 0 ys k.+1 = y + delta_t * (x * (rho - z) - y)
          & nth 0 zs k.+1 = z + delta_t * (x * y - beta * z)]].
Proof.
rewrite lorenz_attractorE /=; split; first by rewrite !size_map size_iota.
  by [].
move=> k lt_k_n.
have nthE (f : F * F * F -> F) (i : nat) : (i < num_steps.+1)%N ->
    nth 0 [seq f (lorenz_state (x0, y0, z0) j) | j <- iota 1 num_steps] i.-1
    = f (lorenz_state (x0, y0, z0) i) \/ i = 0%N.
  case: i => [|i]; [by right | rewrite ltnS => lt_i; left].
  by rewrite (nth_map 0%N) ?size_iota // nth_iota.
have eq_k (f : F * F * F -> F) :
    nth 0 (f (x0, y0, z0)
           :: [seq f (lorenz_state (x0, y0, z0) j) | j <- iota 1 num_steps]) k
    = f (lorenz_state (x0, y0, z0) k).
  case: k lt_k_n => [//|k] lt_k_n /=.
  by rewrite (nth_map 0%N) ?size_iota 1?ltnW // nth_iota // ltnW.
have eq_k1 (f : F * F * F -> F) :
    nth 0 [seq f (lorenz_state (x0, y0, z0) j) | j <- iota 1 num_steps] k
    = f (lorenz_state (x0, y0, z0) k.+1).
  by rewrite (nth_map 0%N) ?size_iota // nth_iota.
rewrite (eq_k (fun s => s.1.1)) (eq_k (fun s => s.1.2)) (eq_k (fun s => s.2)).
rewrite (eq_k1 (fun s => s.1.1)) (eq_k1 (fun s => s.1.2)) (eq_k1 (fun s => s.2)).
by rewrite lorenz_stateS; case: (lorenz_state _ k) => [[x y] z].
Qed.

(** X2: the integrator keeps the symmetry of the Lorenz system: started
    from [(-x0, -y0, z0)] it returns the negated [x] and [y] arrays and the
    same [z] array. *)
Theorem lorenz_attractor_symmetry (x0 y0 z0 : F) (num_steps : nat) :
  let tr := lorenz_attractor sigma rho beta (x0, y0, z0) delta_t num_steps in
  lorenz_attractor sigma rho beta (- x0, - y0, z0) delta_t num_steps
  = ([seq - x | x <- tr.1.1], [seq - y | y <- tr.1.2], tr.2).
Proof.
rewrite !lorenz_attractorE; cbn [fst snd]; rewrite -!map_comp.
by congr (_, _, _); apply: eq_map => k /=; rewrite lorenz_state_flip.
Qed.

Lemma map_zero (T : Type) (f : T -> F) (s : seq T) :
  (forall x, f x = 0) -> [seq f x | x <- s] = nseq (size s) 0.
Proof. by move=> f0; elim: s => [//|x s IHs] /=; rewrite f0 IHs. Qed.

(** X3: a trajectory that starts on the z axis stays on it: [x] and [y]
    are 0 throughout and [z] decays geometrically,
    [z[k] = (1 - delta_t * beta)^k * z0]; the origin is a fixed point. *)
Theorem lorenz_attractor_zaxis (z0 : F) (num_steps : nat) :
  lorenz_attractor sigma rho beta (0, 0, z0) delta_t num_steps
  = (nseq num_steps.+1 0, nseq num_steps.+1 0,
     [seq (1 - delta_t * beta) ^+ k * z0 | k <- iota 0 num_steps.+1])
  /\ lorenz_attractor sigma rho beta (0, 0, 0) delta_t num_steps
     = (nseq num_steps.+1 0, nseq num_steps.+1 0, nseq num_steps.+1 0).
Proof.
have zaxis z :
    lorenz_attractor sigma rho beta (0, 0, z) delta_t num_steps
    = (nseq num_steps.+1 0, nseq num_steps.+1 0,
       [seq (1 - delta_t * beta) ^+ k * z | k <- iota 0 num_steps.+1]).
  rewrite lorenz_attractorE.
  have x_0 k : (lorenz_state (0, 0, z) k).1.1 = 0.
    by rewrite lorenz_state_zaxis.
  have y_0 k : (lorenz_state (0, 0, z) k).1.2 = 0.
    by rewrite lorenz_state_zaxis.
  rewrite (map_zero _ x_0) (map_zero _ y_0) size_iota.
  by congr (_, _, _); apply: eq_map => k; rewrite lorenz_state_zaxis.
split; first exact: zaxis.
rewrite zaxis map_zero ?size_iota // => k.
by rewrite mulr0.
Qed.

(** X4: integrating [n + m] steps is integrating [n] steps and then [m]
    steps from the state reached: the first [n + 1] entries of the long
    run are the short run, and the entries from index [n] on are the run
    restarted at the [n]-th state. *)
Theorem lorenz_attractor_restart (x0 y0 z0 : F) (n m : nat) :
  let tr := lorenz_attractor sigma rho beta (x0, y0, z0) delta_t (n + m) in
  let xs := tr.1.1 in let ys := tr.1.2 in let zs := tr.2 in
  lorenz_attractor sigma rho beta (x0, y0, z0) delta_t n
  = (take n.+1 xs, take n.+1 ys, take n.+1 zs)
  /\ lorenz_attractor sigma rho beta (nth 0 xs n, nth 0 ys n, nth 0 zs n)
       delta_t m
     = (drop n xs, drop n ys, drop n zs).
Proof.
rewrite !lorenz_attractorE; cbn [fst snd].
rewrite -!map_take -!map_drop take_iota drop_iota.
rewrite add0n subSn ?leq_addr // addKn.
have -> : minn n.+1 (n + m).+1 = n.+1.
  by apply/minn_idPl; rewrite ltnS leq_addr.
split=> //.
have nth_n (f : F * F * F -> F) :
    nth 0 [seq f (lorenz_state (x0, y0, z0) k) | k <- iota 0 (n + m).+1] n
    = f (lorenz_state (x0, y0, z0) n).
  by rewrite (nth_map 0%N) ?size_iota ?ltnS ?leq_addr // nth_iota ?ltnS ?leq_addr.
rewrite (nth_n (fun s => s.1.1)) (nth_n (fun s => s.1.2)) (nth_n (fun s => s.2)).
have -> (s : F * F * F) : (s.1.1, s.1.2, s.2) = s by case: s => [[x y] z].
rewrite lorenz_attractorE -[in RHS](addn0 n) iotaDl -!map_comp.
by congr (_, _, _); apply: eq_map => k /=; rewrite lorenz_stateD.
Qed.

End LorenzFacts.

(** ** More on state collection, fitting and forecasting *)

Section EsnFacts.

Variables (F : realFieldType) (tanh : F -> F) (Dx Dz : nat).
Implicit Types (A : 'M[F]_Dx) (C : 'M[F]_(Dx, Dz)) (zeta : 'rV[F]_Dx).
Implicit Types (alpha L : F).

(** Two state matrices that obey the equations of [esn_collect_ok] for
    inputs that agree from row 1 on are equal. *)
Lemma esn_collect_rows_unique (T : nat) (Z Z' : 'M[F]_(T, Dz)) A C zeta alpha
    (X X' : 'M[F]_(T, Dx)) :
  (1 < T)%N ->
  (forall i : 'I_T, (0 < i)%N -> row i Z = row i Z') ->
  esn_collect tanh Z A C zeta alpha = Ok X ->
  esn_collect tanh Z' A C zeta alpha = Ok X' ->
  X = X'.
Proof.
move=> lt_1_T eq_Z.
have [S -> [S_0 S_rec]] := esn_collect_ok tanh Z A C zeta alpha lt_1_T.
have [S' -> [S'_0 S'_rec]] := esn_collect_ok tanh Z' A C zeta alpha lt_1_T.
move=> [<-] [<-]; apply/row_matrixP => t.
have [k eq_k] : exists k : nat, t = k :> nat by exists t.
elim: k t eq_k => [|k IHk] t eq_k.
  rewrite (S_0 t (Ordinal lt_1_T)) // (S'_0 t (Ordinal lt_1_T)) //.
  by rewrite eq_Z.
have lt_k_T : (k < T)%N by rewrite ltnW // -eq_k.
rewrite (S_rec (Ordinal lt_k_T) t) // (S'_rec (Ordinal lt_k_T) t) //.
by rewrite IHk // eq_Z // eq_k.
Qed.

(** X5: [esn_collect] never reads the first input: overwriting [Z[0,:]]
    with any other vector changes neither the states it returns nor
    whether it returns. *)
Theorem esn_collect_ignores_first_input (T : nat) (Z : 'M[F]_(T.+1, Dz))
    (v : 'rV[F]_Dz) A C zeta alpha :
  esn_collect tanh (row_update Z ord0 v) A C zeta alpha
  = esn_collect tanh Z A C zeta alpha.
Proof.
case: T Z => [|T] Z; first by rewrite !esn_collect_short.
have [X eq_X _] := esn_collect_ok tanh Z A C zeta alpha (isT : (1 < T.+2)%N).
have [X' eq_X' _] :=
  esn_collect_ok tanh (row_update Z ord0 v) A C zeta alpha (isT : (1 < T.+2)%N).
rewrite eq_X eq_X'; congr Ok.
apply: esn_collect_rows_unique eq_X' eq_X => // i gt0_i.
by rewrite row_update_other // -val_eqE /= -lt0n.
Qed.

(** With a positive penalty and two rows or more, [esn_fit] returns. *)
Lemma esn_fit_ok (T Dy : nat) (Y : 'M[F]_(T, Dy)) (Z : 'M[F]_(T, Dz))
    L A C zeta alpha :
  (1 < T)%N -> 0 < L ->
  exists S : 'M[F]_(T, Dx), exists W : 'M[F]_(Dx, Dy),
    [/\ esn_collect tanh Z A C zeta alpha = Ok S,
        S^T *m S + (T%:R * L) *: 1%:M \in unitmx
      & esn_fit tanh Y Z L A C zeta alpha = Ok (W, S, S *m W, Y - S *m W)].
Proof.
move=> lt_1_T gt0_L.
have [S eq_S _] := esn_collect_ok tanh Z A C zeta alpha lt_1_T.
have unit_M : S^T *m S + (T%:R * L) *: 1%:M \in unitmx.
  by apply: ridge_matrix_unit; rewrite mulr_gt0 // ltr0n ltnW.
exists S; eexists; split=> //.
by rewrite /esn_fit eq_S /= solve_unit.
Qed.

(** What a successful [esn_fit] returned. *)
Lemma esn_fit_inv (T Dy : nat) (Y : 'M[F]_(T, Dy)) (Z : 'M[F]_(T, Dz))
    L A C zeta alpha (W : 'M[F]_(Dx, Dy)) S Y_fit Err :
  esn_fit tanh Y Z L A C zeta alpha = Ok (W, S, Y_fit, Err) ->
  [/\ esn_collect tanh Z A C zeta alpha = Ok S,
      S^T *m S + (T%:R * L) *: 1%:M \in unitmx,
      (S^T *m S + (T%:R * L) *: 1%:M) *m W = S^T *m Y,
      Y_fit = S *m W & Err = Y - S *m W].
Proof.
rewrite /esn_fit; case: (esn_collect _ _ _ _ _ _) => [S'|e] //=.
rewrite /solve; case: ifP => //= unit_M [<- eq_S <- <-].
by rewrite -eq_S; split=> //; rewrite mulKVmx.
Qed.

(** X6: the residuals that [esn_fit] returns obey the normal equations of
    ridge regression: [S.T @ Error = (T * L) * W_hat]; without a penalty
    they are orthogonal to every column of the state matrix. *)
Theorem esn_fit_normal_equations (T Dy : nat) (Y : 'M[F]_(T, Dy))
    (Z : 'M[F]_(T, Dz)) L A C zeta alpha (W : 'M[F]_(Dx, Dy)) S Y_fit Err :
  esn_fit tanh Y Z L A C zeta alpha = Ok (W, S, Y_fit, Err) ->
  S^T *m Err = (T%:R * L) *: W /\ (L = 0 -> S^T *m Err = 0).
Proof.
move=> /esn_fit_inv[_ _ eq_W _ ->].
have eq_E : S^T *m (Y - S *m W) = (T%:R * L) *: W.
  by rewrite mulmxBr -eq_W mulmxA mulmxDl addrC addKr -scalemxAl mul1mx.
by split=> // L0; rewrite eq_E L0 mulr0 scale0r.
Qed.

(** X7: without a penalty, targets that are an exact linear readout
    [S @ W0] of the collected states are fitted exactly when the Gram
    matrix is invertible: [esn_fit] returns [W0] and zero residuals. *)
Theorem esn_fit_exact_recovery (T Dy : nat) (Z : 'M[F]_(T, Dz)) A C zeta alpha
    (S : 'M[F]_(T, Dx)) (W0 : 'M[F]_(Dx, Dy)) :
  esn_collect tanh Z A C zeta alpha = Ok S ->
  S^T *m S \in unitmx ->
  esn_fit tanh (S *m W0) Z 0 A C zeta alpha = Ok (W0, S, S *m W0, 0).
Proof.
move=> eq_S unit_G; rewrite /esn_fit eq_S /= mulr0 scale0r addr0.
by rewrite solve_unit //= (mulmxA S^T S W0) mulKmx // subrr.
Qed.

(** X8: with a positive penalty [esn_fit] returns exactly when the input
    sequence has at least two rows; a shorter one raises [IndexError]
    before anything is solved. *)
Theorem esn_fit_returns_iff (T Dy : nat) (Y : 'M[F]_(T, Dy))
    (Z : 'M[F]_(T, Dz)) L A C zeta alpha :
  0 < L ->
  ((exists r, esn_fit tanh Y Z L A C zeta alpha = Ok r) <-> (1 < T)%N)
  /\ ((T < 2)%N -> esn_fit tanh Y Z L A C zeta alpha = Raise IndexError).
Proof.
move=> gt0_L.
have short : (T < 2)%N -> esn_fit tanh Y Z L A C zeta alpha = Raise IndexError.
  by move=> lt_T_2; rewrite /esn_fit esn_collect_short.
split=> //; split=> [[r]|lt_1_T].
  by case: (ltnP 1 T) => // /short ->.
have [S [W [_ _ ->]]] := esn_fit_ok Y Z A C zeta alpha lt_1_T gt0_L.
by eexists.
Qed.

(** X9: an autonomous forecast can be restarted from any of its states:
    the forecast seeded with [Xh[i]] repeats the states and outputs of the
    original forecast from index [i] on. *)
Theorem esn_auto_restart (X0 : 'rV[F]_Dx) (h h' : nat) A C zeta alpha
    (W : 'M[F]_(Dx, Dz)) (i : 'I_h.+1) :
  exists Xh : 'M[F]_(h.+1, Dx), exists Yh : 'M[F]_(h.+1, Dz),
  exists Xh' : 'M[F]_(h'.+1, Dx), exists Yh' : 'M[F]_(h'.+1, Dz),
    [/\ esn_auto tanh X0 h.+1 A C zeta alpha W = Ok (Xh, Yh),
        esn_auto tanh (row i Xh) h'.+1 A C zeta alpha W = Ok (Xh', Yh')
      & forall (k : 'I_h'.+1) (j : 'I_h.+1), j = (i + k)%N :> nat ->
          row k Xh' = row j Xh /\ row k Yh' = row j Yh].
Proof.
have [//|[Xh Yh] eq_st [/= X_0 Y_0 X_rec Y_out]] :=
  esn_auto_ok tanh X0 A C zeta alpha W (h := h.+1).
have [//|[Xh' Yh'] eq_st' [/= X'_0 Y'_0 X'_rec Y'_out]] :=
  esn_auto_ok tanh (row i Xh) A C zeta alpha W (h := h'.+1).
exists Xh, Yh, Xh', Yh'; split=> // k j eq_j.
suff eq_X : row k Xh' = row j Xh by rewrite Y'_out Y_out eq_X.
have [n eq_n] : exists n : nat, k = n :> nat by exists k.
elim: n k j eq_n eq_j => [|n IHn] k j eq_n eq_j.
  have -> : j = i by apply: val_inj; rewrite /= eq_j eq_n addn0.
  exact: X'_0.
have lt_n : (n < h'.+1)%N by rewrite ltnW // -eq_n.
have lt_in : (i + n < h.+1)%N.
  by apply: leq_trans (ltn_ord j); rewrite eq_j eq_n addnS.
have eq_jS : j = (Ordinal lt_in).+1 :> nat by rewrite /= eq_j eq_n addnS.
rewrite (X'_rec (Ordinal lt_n) k eq_n) (X_rec (Ordinal lt_in) j eq_jS).
by congr (esn_auto_update _ _ _ _ _); apply: IHn.
Qed.

(** X10: when the seed state has its entries in [[-1, 1]], so has every
    state of the autonomous forecast, however long the horizon and
    whatever the readout weights; the only horizon without a forecast
    is 0. *)
Theorem esn_auto_states_bounded (X0 : 'rV[F]_Dx) (h : nat) A C zeta alpha
    (W : 'M[F]_(Dx, Dz)) :
  (forall x, `|tanh x| <= 1) -> 0 <= alpha <= 1 ->
  (forall j, -1 <= X0 0 j <= 1) ->
  match esn_auto tanh X0 h A C zeta alpha W with
  | Ok st => forall t j, -1 <= st.1 t j <= 1
  | Raise _ => h = 0%N
  end.
Proof.
move=> tanh_bound alpha01 X0_bound.
case: (posnP h) => [->|gt0_h]; first by rewrite esn_auto_horizon0.
have [[Xh Yh] -> [/= X_0 _ X_rec _]] :=
  esn_auto_ok tanh X0 A C zeta alpha W gt0_h.
move=> t j; have [k eq_k] : exists k : nat, t = k :> nat by exists t.
elim: k t eq_k j => [|k IHk] t eq_k j.
  by have /rowP/(_ j) := X_0 t eq_k; rewrite !mxE => ->.
have lt_k_h : (k < h)%N by rewrite ltnW // -eq_k.
have /rowP/(_ j) := X_rec (Ordinal lt_k_h) t eq_k.
rewrite !mxE => ->; rewrite -ler_norml.
by apply: convex_in_unit => //; rewrite ler_norml IHk.
Qed.

(** X11: in the experiments of the notebook, which forecast from the last
    collected state, the first forecast output repeats the last fitted
    value, [Yh[0] = Y_fit[-1]], and the next state is the driven update of
    the state collector fed with that fitted value. *)
Theorem esn_fit_auto_starts_at_last_fit (T h : nat)
    (Y_out Y_in : 'M[F]_(T.+2, Dz)) L A C zeta alpha :
  0 < L ->
  exists W : 'M[F]_(Dx, Dz), exists X : 'M[F]_(T.+2, Dx),
  exists Y_fit : 'M[F]_(T.+2, Dz),
  exists Xh : 'M[F]_(h.+1, Dx), exists Yh : 'M[F]_(h.+1, Dz),
    [/\ esn_fit_auto tanh Y_out Y_in L A C zeta alpha h.+1
        = Ok (W, X, Y_fit, Xh, Yh),
        row 0 Xh = row ord_max X,
        row 0 Yh = row ord_max Y_fit
      & forall t : 'I_h.+1, t = 1%N :> nat ->
          row t Xh = esn_collect_update tanh A C zeta alpha
                       (row ord_max X) (row ord_max Y_fit)].
Proof.
move=> gt0_L.
have [//|S [W [_ _ eq_fit]]] := esn_fit_ok Y_out Y_in A C zeta alpha _ gt0_L.
have [//|[Xh Yh] eq_st [/= X_0 Y_0 X_rec _]] :=
  esn_auto_ok tanh (row ord_max S) A C zeta alpha W (h := h.+1).
exists W, S, (S *m W), Xh, Yh; split.
- rewrite /esn_fit_auto eq_fit /= /getrow py_index_last /=.
  by rewrite eq_st.
- exact: X_0.
- by rewrite Y_0 // row_mul.
- move=> t eq_t; rewrite (X_rec ord0 t) // X_0 // row_mul.
  by rewrite /esn_auto_update /esn_collect_update matvec_fold.
Qed.

End EsnFacts.

(** X12: with the leak rate [alpha = 1] the collected states are all zero,
    whatever the inputs and the reservoir, and the unpenalised fit always
    ends in [LinAlgError]. *)
Theorem esn_fit_leak_one (F : realFieldType) (tanh : F -> F) (Dx Dz T Dy : nat)
    (Y : 'M[F]_(T.+2, Dy)) (Z : 'M[F]_(T.+2, Dz)) (A : 'M[F]_Dx.+1)
    (C : 'M[F]_(Dx.+1, Dz)) (zeta : 'rV[F]_Dx.+1) :
  esn_collect tanh Z A C zeta 1 = Ok 0
  /\ esn_fit tanh Y Z 0 A C zeta 1 = Raise LinAlgError.
Proof.
have eq_S : esn_collect tanh Z A C zeta 1 = Ok 0 by apply: esn_collect_alpha1.
split=> //; rewrite /esn_fit eq_S /= mulr0 scale0r addr0 solve_singular //.
by rewrite mulmx0 unitmxE det0 unitr0.
Qed.

(** ** More on the Mackey-Glass integrator *)

Section MackeyGlassMore.

Variables (F : archiRealFieldType) (fpow : F -> F -> F).
Implicit Types (beta gamma n tau a delta_t : F).

Lemma delay_steps_ge tau delta_t (t : nat) :
  0 < delta_t -> t%:R * delta_t <= tau ->
  (t <= delay_steps (tau / delta_t))%N.
Proof.
move=> gt0_dt le_t_tau; rewrite /delay_steps.
have le_t : Posz t <= Num.floor (tau / delta_t).
  by rewrite floor_ge_int -pmulrn ler_pdivlMr.
have ge0_fl : 0 <= Num.floor (tau / delta_t) by apply: le_trans le_t.
by rewrite -lez_nat gez0_abs.
Qed.

(** X13: while the delay reaches back before time 0, that is for the steps
    [t] with [t * delta_t <= tau], [mackey_glass] takes the delayed value
    to be the initial condition 0.5: the start of the trajectory is the
    linear recursion
    [x[t] = x[t-1] + delta_t * (beta * 0.5 / (1 + 0.5 ** n) - gamma * x[t-1])]. *)
Theorem mackey_glass_startup beta gamma n tau a delta_t (N : nat) :
  0 <= tau -> 0 < delta_t ->
  exists2 x : 'rV[F]_N.+1,
    mackey_glass fpow beta gamma n tau a delta_t N.+1 = Ok (a *: x)
  & forall t' t : 'I_N.+1, t = t'.+1 :> nat -> t%:R * delta_t <= tau ->
      x 0 t = x 0 t' + delta_t * (beta * (1 / 2) / (1 + fpow (1 / 2) n)
                                  - gamma * x 0 t').
Proof.
move=> ge0_tau gt0_dt.
have [//|x eq_x [x_0 x_rec]] :=
  mackey_glass_ok fpow beta gamma n a ge0_tau gt0_dt (num_steps := N.+1).
exists x => // t' t eq_t le_t_tau.
have := x_rec t' t ord0 eq_t.
have /eqP -> : (t - delay_steps (tau / delta_t) == 0)%N.
  by rewrite subn_eq0 delay_steps_ge.
by rewrite eq_t /= (x_0 ord0) // => ->.
Qed.

(** X14: with non-negative [beta], [gamma] and [a], a step that does not
    overshoot the decay ([gamma * delta_t <= 1]) and a power that is
    non-negative on non-negative bases, the trajectory of [mackey_glass]
    never becomes negative. *)
Theorem mackey_glass_nonneg beta gamma n tau a delta_t (N : nat) :
  0 <= beta -> 0 <= gamma -> gamma * delta_t <= 1 -> 0 <= a ->
  0 <= tau -> 0 < delta_t ->
  (forall v, 0 <= v -> 0 <= fpow v n) ->
  match mackey_glass fpow beta gamma n tau a delta_t N with
  | Ok y => forall j, 0 <= y 0 j
  | Raise _ => N = 0%N
  end.
Proof.
move=> ge0_beta ge0_gamma le_gdt ge0_a ge0_tau gt0_dt ge0_pow.
case: (posnP N) => [eq_N|gt0_N].
  by rewrite /mackey_glass /setitem py_index_oob // eq_N.
have [x -> [x_0 x_rec]] :=
  mackey_glass_ok fpow beta gamma n a ge0_tau gt0_dt gt0_N.
suff ge0_x (m : nat) (t : 'I_N) : (t <= m)%N -> 0 <= x 0 t.
  by move=> j; rewrite mxE mulr_ge0 // (ge0_x j).
elim: m t => [|m IHm] t.
  by rewrite leqn0 => /eqP eq_t; rewrite x_0 // divr_ge0 ?ler01 ?ler0n.
rewrite leq_eqVlt ltnS => /orP[/eqP eq_t|]; last exact: IHm.
have lt_m_N : (m < N)%N by rewrite ltnW // -eq_t.
have lt_d_N : (t - delay_steps (tau / delta_t) < N)%N.
  exact: leq_ltn_trans (leq_subr _ _) (ltn_ord t).
rewrite (x_rec (Ordinal lt_m_N) t (Ordinal lt_d_N)) //.
set v := if _ then _ else _; set xp := x 0 _.
have ge0_v : 0 <= v.
  rewrite /v; case: ifP => // lt_d_t; apply: IHm.
  by rewrite -ltnS -eq_t.
have ge0_xp : 0 <= xp by apply: IHm.
rewrite /mackey_glass_update.
have -> : xp + delta_t * (beta * v / (1 + fpow v n) - gamma * xp)
          = (1 - gamma * delta_t) * xp
            + delta_t * (beta * v / (1 + fpow v n)).
  by ring.
apply: addr_ge0; first by rewrite mulr_ge0 // subr_ge0.
have ge0_d : 0 <= 1 + fpow v n by apply: addr_ge0 => //; apply: ge0_pow.
by rewrite mulr_ge0 ?divr_ge0 ?mulr_ge0 // ltW.
Qed.

(** X15: the short runs of [mackey_glass]: no step raises [IndexError] at
    [x[0] = 0.5]; one step returns the scaled initial condition [a * 0.5]
    without reading [tau] or [delta_t]; two steps or more with
    [delta_t = 0] raise [ZeroDivisionError]. *)
Theorem mackey_glass_short_runs beta gamma n tau a delta_t :
  [/\ mackey_glass fpow beta gamma n tau a delta_t 0 = Raise IndexError,
      mackey_glass fpow beta gamma n tau a delta_t 1
      = Ok (const_mx (a * (1 / 2)))
    & forall N, mackey_glass fpow beta gamma n tau a 0 N.+2
                = Raise ZeroDivisionError].
Proof.
split=> [||N].
- by rewrite /mackey_glass /setitem py_index_oob.
- rewrite /mackey_glass (setitem_ord _ (ord0 : 'I_1)) /=.
  by congr Ok; apply/rowP => j; rewrite !mxE ord1 eqxx.
- rewrite /mackey_glass (setitem_ord _ (ord0 : 'I_N.+2)) /=.
  by rewrite for_range_step //= /py_div eqxx.
Qed.

End MackeyGlassMore.

(** ** The nonlinear autoregression *)

Section NonlinearARFacts.

Variable F : realFieldType.

(** The map of the autoregression is bounded by 9/8 (its supremum is
    [sqrt(5) / 2]). *)
Lemma nonlin_ar_map_bound (x : F) : `|nonlin_ar_map x| <= 9 / 8.
Proof.
have gt0_d : 0 < 1 + 4 / 5 * x ^+ 2.
  by rewrite ltr_wpDr // mulr_ge0 ?sqr_ge0 // divr_ge0 ?ler0n.
rewrite /nonlin_ar_map normrM normfV (gtr0_norm gt0_d) ler_pdivrMr //.
rewrite normrM (@ger0_norm _ 2) ?ler0n // -[x ^+ 2]real_normK ?num_real //.
have := normr_ge0 x; set y := `|x| => ge0_y.
have := sqr_ge0 (y - 10 / 9).
by nra.
Qed.

Variable draws : nat -> F.

(** What [nonlin_ar] computes before it discards the first [init] entries:
    [E] holds the draws in order and [X] starts at 0 and follows the
    recursion. *)
Lemma nonlin_ar_ok (n init : nat) :
  (0 < n + init)%N ->
  exists X : 'rV[F]_(n + init), exists E : 'rV[F]_(n + init),
    [/\ nonlin_ar draws n init = Ok (slice_from X init, slice_from E init),
        forall t : 'I_(n + init), E 0 t = draws t,
        forall t : 'I_(n + init), t = 0%N :> nat -> X 0 t = 0
      & forall t' t : 'I_(n + init), t = t'.+1 :> nat ->
          X 0 t = nonlin_ar_map (X 0 t') + E 0 t].
Proof.
move=> gt0_N; pose o0 := Ordinal gt0_N; set N := (n + init)%N in gt0_N o0 *.
rewrite /nonlin_ar -/N (setitem_ord _ o0) /=.
set E0 := item_update 0 o0 (draws 0).
pose P (t : nat) (st : nat * 'rV[F]_N * 'rV[F]_N) :=
  [/\ st.1.1 = t,
      forall j : 'I_N, (j < t)%N -> st.1.2 0 j = draws j,
      st.2 0 o0 = 0
    & forall i j : 'I_N, j = i.+1 :> nat -> (j < t)%N ->
        st.2 0 j = nonlin_ar_map (st.2 0 i) + st.1.2 0 j].
set body := fun (t : nat) (st : nat * 'rV[F]_N * 'rV[F]_N) => _.
have [||[[rng E] X] -> [/= _ E_t X_0 X_rec]] :=
  @for_range_inv _ P 1 N body (1%N, E0, 0) gt0_N.
- split=> [//|j /=||i j -> //]; last by rewrite /= mxE.
  rewrite ltnS leqn0 => /eqP eq_j.
  by have -> : j = o0; [apply: val_inj | rewrite item_update_same].
- move=> t [[rng E] X] /andP[lt_0_t lt_t_N] [/= eq_rng E_t X_0 X_rec].
  have lt_p_N : (t.-1 < N)%N by rewrite prednK // ltnW.
  pose ot := Ordinal lt_t_N; pose op := Ordinal lt_p_N.
  rewrite /body /= (setitem_ord E ot) /= predz // (getitem_ord X op) /=.
  rewrite (getitem_ord _ ot) /= item_update_same (setitem_ord X ot) /=.
  eexists; first by [].
  have ne_0t : o0 != ot by rewrite -val_eqE /= eq_sym -lt0n.
  have ne_pt : op != ot.
    by rewrite -val_eqE /= -{2}(prednK lt_0_t) neq_ltn ltnSn.
  split=> /= [|j|//|i j eq_j]; first by rewrite eq_rng.
  - rewrite ltnS leq_eqVlt => /orP[/eqP eq_jt|lt_j_t].
      have -> : j = ot by apply: val_inj.
      by rewrite item_update_same eq_rng.
    by rewrite item_update_other ?E_t // -val_eqE /= neq_ltn lt_j_t.
  - by rewrite item_update_other.
  rewrite ltnS leq_eqVlt => /orP[/eqP eq_jt|lt_j_t].
    have -> : j = ot by apply: val_inj.
    have -> : i = op by apply: val_inj; rewrite /= -eq_jt eq_j.
    by rewrite !item_update_same (@item_update_other _ _ _ _ op).
  have ne_jt : j != ot by rewrite -val_eqE /= neq_ltn lt_j_t.
  have ne_it : i != ot.
    by rewrite -val_eqE /= neq_ltn (ltn_trans _ lt_j_t) // eq_j.
  by rewrite !item_update_other //; apply: X_rec.
exists X, E; split=> // [t|t eq_t|t' t eq_t]; first exact: E_t.
  by have -> : t = o0 by apply: val_inj.
exact: X_rec.
Qed.

Lemma nonlin_ar_empty : nonlin_ar draws 0 0 = Raise IndexError.
Proof. by rewrite /nonlin_ar /setitem py_index_oob. Qed.

(** X16: the two series that [nonlin_ar] returns are consistent: the
    innovations are the draws of the generator from position [init] on,
    and every returned value after the first is
    [2 * X[j-1] / (1 + 0.8 * X[j-1]**2) + E[j]] computed from the returned
    values; without burn-in the series starts at 0.  Only [n + init = 0]
    raises ([IndexError]). *)
Theorem nonlin_ar_recursion (n init : nat) :
  match nonlin_ar draws n init with
  | Ok r =>
      [/\ forall j : 'I_(n + init - init), r.2 0 j = draws (init + j),
          forall j' j : 'I_(n + init - init), j = j'.+1 :> nat ->
            r.1 0 j = 2 * r.1 0 j' / (1 + 4 / 5 * r.1 0 j' ^+ 2) + r.2 0 j
        & forall j : 'I_(n + init - init), (init + j)%N = 0%N -> r.1 0 j = 0]
  | Raise e => e = IndexError /\ (n + init)%N = 0%N
  end.
Proof.
case: (posnP (n + init)) => [/eqP|gt0_N].
  by rewrite addn_eq0 => /andP[/eqP -> /eqP ->]; rewrite nonlin_ar_empty.
have [X [E [-> E_t X_0 X_rec]]] := nonlin_ar_ok gt0_N.
split=> [j|j' j eq_j|j eq_j] /=; rewrite !mxE.
- by rewrite E_t.
- by rewrite (X_rec (Ordinal (slice_from_bound j'))) //= eq_j addnS.
- exact: X_0.
Qed.

(** X17: when every draw lies in [[-1, 1]], every value that [nonlin_ar]
    returns lies in [[-17/8, 17/8]]. *)
Theorem nonlin_ar_bounded (n init : nat) :
  (forall k, `|draws k| <= 1) ->
  match nonlin_ar draws n init with
  | Ok r => forall j, `|r.1 0 j| <= 17 / 8
  | Raise _ => (n + init)%N = 0%N
  end.
Proof.
move=> draws_le1.
case: (posnP (n + init)) => [/eqP|gt0_N].
  by rewrite addn_eq0 => /andP[/eqP -> /eqP ->]; rewrite nonlin_ar_empty.
have [X [E [-> E_t X_0 X_rec]]] := nonlin_ar_ok gt0_N.
move=> j /=; rewrite mxE; set t := Ordinal _.
case: (posnP t) => [eq_t|gt0_t].
  by rewrite X_0 // normr0 divr_ge0 ?ler0n.
have lt_p : (t.-1 < n + init)%N by rewrite prednK // ltnW.
rewrite (X_rec (Ordinal lt_p) t) /= ?prednK //.
apply: le_trans (ler_normD _ _) _.
have -> : 17 / 8 = 9 / 8 + 1 :> F by field.
by apply: lerD; rewrite ?nonlin_ar_map_bound // E_t.
Qed.

Variables (mc : nat) (draws_vec : nat -> 'rV[F]_mc).

Lemma nonlin_ar_condpred_ok (h : nat) (X0 : F) :
  (0 < h)%N ->
  exists Xh : 'M[F]_(h, mc),
    [/\ nonlin_ar_condpred draws_vec h X0 = Ok Xh,
        forall t : 'I_h, t = 0%N :> nat -> row t Xh = const_mx X0
      & forall t' t : 'I_h, t = t'.+1 :> nat ->
          row t Xh = map_mx (@nonlin_ar_map F) (row t' Xh) + draws_vec t'].
Proof.
move=> gt0_h; pose o0 := Ordinal gt0_h.
rewrite /nonlin_ar_condpred (setrow_ord _ o0) /=.
set Xh0 := row_update 0 o0 (const_mx X0).
pose P (t : nat) (st : nat * 'M[F]_(h, mc)) :=
  [/\ st.1 = t.-1, row o0 st.2 = const_mx X0
    & forall i j : 'I_h, j = i.+1 :> nat -> (j < t)%N ->
        row j st.2 = map_mx (@nonlin_ar_map F) (row i st.2) + draws_vec i].
set body := fun (t : nat) (st : nat * 'M[F]_(h, mc)) => _.
have [||[rng Xh] -> [/= _ X_0 X_rec]] :=
  @for_range_inv _ P 1 h body (0%N, Xh0) gt0_h.
- by split=> [//||i j -> //]; rewrite /= row_update_same.
- move=> t [rng Xh] /andP[lt_0_t lt_t_h] [/= eq_rng X_0 X_rec].
  have lt_p_h : (t.-1 < h)%N by rewrite prednK // ltnW.
  pose ot := Ordinal lt_t_h; pose op := Ordinal lt_p_h.
  rewrite /body /= predz // (getrow_ord Xh op) /= (setrow_ord Xh ot) /=.
  eexists; first by [].
  have ne_0t : o0 != ot by rewrite -val_eqE /= eq_sym -lt0n.
  have ne_pt : op != ot.
    by rewrite -val_eqE /= -{2}(prednK lt_0_t) neq_ltn ltnSn.
  split=> /= [||i j eq_j]; first by rewrite eq_rng prednK.
    by rewrite row_update_other.
  rewrite ltnS leq_eqVlt => /orP[/eqP eq_jt|lt_j_t].
    have -> : j = ot by apply: val_inj.
    have -> : i = op by apply: val_inj; rewrite /= -eq_jt eq_j.
    by rewrite row_update_same row_update_other // eq_rng.
  have ne_jt : j != ot by rewrite -val_eqE /= neq_ltn lt_j_t.
  have ne_it : i != ot.
    by rewrite -val_eqE /= neq_ltn (ltn_trans _ lt_j_t) // eq_j.
  by rewrite !row_update_other //; apply: X_rec.
exists Xh; split=> // [t eq_t|t' t eq_t]; last exact: X_rec.
by have -> : t = o0 by apply: val_inj.
Qed.

(** X18: every Monte-Carlo path of [nonlin_ar_condpred] starts at [X0] and
    follows the autoregression with its own column of the innovations; when
    these lie in [[-1, 1]] every later value lies in [[-17/8, 17/8]],
    wherever the path started.  Only the horizon 0 raises. *)
Theorem nonlin_ar_condpred_paths (h : nat) (X0 : F) :
  (forall k j, `|draws_vec k 0 j| <= 1) ->
  match nonlin_ar_condpred draws_vec h X0 with
  | Ok Xh =>
      (forall (t : 'I_h) j, t = 0%N :> nat -> Xh t j = X0)
      /\ (forall (t' t : 'I_h) j, t = t'.+1 :> nat ->
           Xh t j = 2 * Xh t' j / (1 + 4 / 5 * Xh t' j ^+ 2)
                    + draws_vec t' 0 j
           /\ `|Xh t j| <= 17 / 8)
  | Raise _ => h = 0%N
  end.
Proof.
move=> draws_le1.
case: (posnP h) => [->|gt0_h].
  by rewrite /nonlin_ar_condpred /setrow py_index_oob.
have [Xh [-> X_0 X_rec]] := nonlin_ar_condpred_ok X0 gt0_h.
split=> [t j eq_t|t' t j eq_t].
  by have /rowP/(_ j) := X_0 t eq_t; rewrite !mxE.
have /rowP/(_ j) := X_rec t' t eq_t; rewrite !mxE => eq_X.
split; first exact: eq_X.
rewrite eq_X; apply: le_trans (ler_normD _ _) _.
have -> : 17 / 8 = 9 / 8 + 1 :> F by field.
by apply: lerD; rewrite ?draws_le1 //; apply: nonlin_ar_map_bound.
Qed.

End NonlinearARFacts.

(** ** The sequence datasets *)

Section SliceFacts.

Variable T : Type.

(** A slice between two bounds that are not negative is a [take] of a
    [drop]. *)
Lemma py_slice_nat (s : seq T) (a len : nat) :
  py_slice s (Posz a) (Posz a + Posz len) = take len (drop a s).
Proof.
rewrite /py_slice -PoszD /py_bound.
case: (leqP a (size s)) => [le_a|lt_a]; last first.
  by rewrite drop_size (drop_oversize (ltnW lt_a)).
case: (leqP (a + len) (size s)) => [le_al|lt_al]; first by rewrite addKn.
by rewrite !take_oversize // size_drop // leq_subLR ltnW.
Qed.

(** Consecutive windows of length [len] tile a prefix of the sequence. *)
Lemma windows_tile (s : seq T) (len k : nat) :
  flatten [seq take len (drop (i * len) s) | i <- iota 0 k]
  = take (k * len) s.
Proof.
elim: k => [|k IHk]; first by rewrite mul0n take0.
rewrite -addn1 iotaD add0n map_cat flatten_cat IHk /= cats0.
by rewrite addn1 mulSn addnC takeD.
Qed.

Lemma size_window (s : seq T) (a len : nat) :
  (a + len <= size s)%N -> size (take len (drop a s)) = len.
Proof.
move=> le_al; rewrite size_takel // size_drop leq_subRL //.
exact: leq_trans (leq_addr _ _) le_al.
Qed.

End SliceFacts.

Section DatasetFacts.

Variables (xrow yrow : Type) (xzero : xrow) (yzero : yrow).

(** X19: in a [CityDataset] whose features and targets have the same
    number of rows, every index [idx] with [idx + seq_len] rows available
    yields the window of exactly [seq_len] consecutive rows that starts at
    [idx], for the features and for the targets alike; the indices below
    [__len__] are those with [idx + seq_len < N], so the last full window,
    at [idx = N - seq_len], lies outside the length that is reported. *)
Theorem CityDataset_windows (X : seq xrow) (y : seq yrow) (seq_len idx : nat) :
  size X = size y -> (idx + seq_len <= size y)%N ->
  let self := CityDataset_init X y seq_len in
  let w := CityDataset_getitem self (Posz idx) in
  [/\ w = (take seq_len (drop idx X), take seq_len (drop idx y)),
      size w.1 = seq_len,
      size w.2 = seq_len
    & (Posz idx < CityDataset_len self) = (idx + seq_len < size y)%N].
Proof.
move=> eq_size le_idx self w.
have eq_w : w = (take seq_len (drop idx X), take seq_len (drop idx y)).
  by rewrite /w /CityDataset_getitem /= !py_slice_nat.
rewrite eq_w /=; split=> //.
- by rewrite size_window // eq_size.
- by rewrite size_window.
- by rewrite /CityDataset_len /= ltrBrDr -PoszD ltz_nat.
Qed.

Lemma pm_len_floor (N s : nat) :
  (0 < s)%N -> ((Posz N - Posz s) %/ s)%Z + 1 = Posz (N %/ s).
Proof.
move=> gt0_s.
have -> : Posz N - Posz s = (-1) * Posz s + Posz N by rewrite mulN1r addrC.
by rewrite divzMDl ?eqz_nat -?lt0n // addrAC addNr add0r divz_nat.
Qed.

Lemma pad_dvdn (N s : nat) : (0 < s)%N -> (s %| N + (s - N %% s))%N.
Proof.
move=> gt0_s; rewrite {1}(divn_eq N s) -addnA subnKC.
  by rewrite ltnW // ltn_pmod.
by rewrite dvdn_addl // dvdn_mull.
Qed.

Lemma PMDataset_getitem_nat (self : PMDataset xrow yrow) (i : nat) :
  PMDataset_getitem self (Posz i)
  = (take (pm_seq_len self) (drop (i * pm_seq_len self) (pm_X self)),
     take (pm_seq_len self) (drop (i * pm_seq_len self) (pm_y self))).
Proof. by rewrite /PMDataset_getitem -PoszM !py_slice_nat. Qed.

(** X20: a [PMDataset] built with [enforce_shape=True] pads features and
    targets with fewer than [seq_len] zero rows up to a multiple of
    [seq_len], keeps the data as a prefix, and its [__len__] windows tile
    the padded tensors: concatenated in order they give back every row
    exactly once. *)
Theorem PMDataset_padded_tiling (X : seq xrow) (y : seq yrow) (s : nat) :
  size X = size y ->
  exists self : PMDataset xrow yrow,
    [/\ PMDataset_init xzero yzero X y s.+1 true = Ok self,
        pm_X self = X ++ nseq (pm_added self) xzero
        /\ pm_y self = y ++ nseq (pm_added self) yzero,
        (pm_added self < s.+1)%N /\ (s.+1 %| size (pm_X self))%N,
        PMDataset_len self = Ok (Posz (size (pm_X self) %/ s.+1))
      & flatten [seq (PMDataset_getitem self (Posz i)).1
                | i <- iota 0 (size (pm_X self) %/ s.+1)] = pm_X self
        /\ flatten [seq (PMDataset_getitem self (Posz i)).2
                   | i <- iota 0 (size (pm_X self) %/ s.+1)] = pm_y self].
Proof.
move=> eq_size.
pose k := if (size X %% s.+1 != 0)%N then (s.+1 - size X %% s.+1)%N else 0%N.
have lt_k : (k < s.+1)%N.
  rewrite /k; case: ifP => // ne0_r.
  by rewrite -subn_gt0 subKn ?lt0n // ltnW // ltn_pmod.
have dvd_k : (s.+1 %| size X + k)%N.
  rewrite /k; case: ifP => [_|/negbFE]; first exact: pad_dvdn.
  by rewrite addn0.
exists (MkPMDataset (X ++ nseq k xzero) (y ++ nseq k yzero) k s.+1).
have size_X : size (X ++ nseq k xzero) = (size X + k)%N.
  by rewrite size_cat size_nseq.
have size_y : size (y ++ nseq k yzero) = (size X + k)%N.
  by rewrite size_cat size_nseq eq_size.
split.
- rewrite /PMDataset_init /py_mod /= -eq_size /k.
  by case: ifP => //= _; rewrite !cats0.
- by [].
- by rewrite /= size_X.
- by rewrite /PMDataset_len /py_floordiv /= size_y size_X pm_len_floor.
- have tile (T : Type) (l : seq T) : size l = (size X + k)%N ->
      flatten [seq take s.+1 (drop (i * s.+1) l)
              | i <- iota 0 (size (X ++ nseq k xzero) %/ s.+1)] = l.
    move=> size_l; rewrite windows_tile size_X divnK //.
    by rewrite -size_l take_size.
  split.
    rewrite -[RHS](tile _ _ size_X); congr flatten; apply: eq_map => i.
    by rewrite PMDataset_getitem_nat.
  rewrite -[RHS](tile _ _ size_y); congr flatten; apply: eq_map => i.
  by rewrite PMDataset_getitem_nat.
Qed.

(** X21: a [PMDataset] built without [enforce_shape] keeps the tensors as
    they are and has [N // seq_len] windows; each of them has exactly
    [seq_len] rows, and together they cover the first
    [N - N % seq_len] rows in order: the last [N % seq_len] rows are in no
    window. *)
Theorem PMDataset_unpadded_windows (X : seq xrow) (y : seq yrow) (s : nat) :
  size X = size y ->
  exists self : PMDataset xrow yrow,
    [/\ PMDataset_init xzero yzero X y s.+1 false = Ok self,
        pm_X self = X /\ pm_y self = y,
        PMDataset_len self = Ok (Posz (size X %/ s.+1)),
        forall i, (i < size X %/ s.+1)%N ->
          size (PMDataset_getitem self (Posz i)).1 = s.+1
          /\ size (PMDataset_getitem self (Posz i)).2 = s.+1
      & flatten [seq (PMDataset_getitem self (Posz i)).1
                | i <- iota 0 (size X %/ s.+1)]
        = take (size X - size X %% s.+1) X].
Proof.
move=> eq_size; exists (MkPMDataset X y 0 s.+1); split=> //.
- by rewrite /PMDataset_len /py_floordiv /= -eq_size pm_len_floor.
- move=> i lt_i; rewrite PMDataset_getitem_nat /=.
  have le_i : (i * s.+1 + s.+1 <= size X)%N.
    rewrite addnC -mulSn (leq_trans _ (leq_trunc_div _ s.+1)) //.
    by rewrite leq_mul2r lt_i orbT.
  by rewrite !size_window // -eq_size.
- have -> : (size X - size X %% s.+1)%N = (size X %/ s.+1 * s.+1)%N.
    by rewrite {1}(divn_eq (size X) s.+1) addnK.
  rewrite -windows_tile; congr flatten; apply: eq_map => i.
  by rewrite PMDataset_getitem_nat.
Qed.

End DatasetFacts.

(** ** The further properties at work *)

(** The states collected over the reals from the inputs [[0.], [1.]] have
    an invertible Gram matrix. *)
Lemma gram_Z01_unit :
  exists2 S : 'M[R]_(2, 1),
    esn_collect tanh (Z01 R) 0 1%:M 0 0 = Ok S & S^T *m S \in unitmx.
Proof.
have [S eq_S [S_00 spec_00]] := esn_collect_Z01 tanh.
exists S => //; rewrite unitmxE det_mx11 unitfE mxE.
rewrite big_ord_recl big_ord_recl big_ord0 addr0 !mxE -!expr2.
rewrite paddr_eq0 ?sqr_ge0 // negb_and sqrf_eq0 S_00.
apply/orP; left; apply/eqP => tanh1_0; apply: tanh1_neq_tanh0.
rewrite tanh1_0 /tanh sinh_0.
by rewrite /Rdiv Rmult_0_l.
Qed.

(** [esn_fit_normal_equations] over the reals, on the inputs and targets
    [[0.], [1.]] with the penalty 1. *)
Lemma esn_fit_normal_equations_witness :
  exists S : 'M[R]_(2, 1), exists W : 'M[R]_1,
    esn_fit tanh (Z01 R) (Z01 R) 1 0 1%:M 0 0
    = Ok (W, S, S *m W, Z01 R - S *m W)
    /\ (S^T *m (Z01 R - S *m W) = (2%:R * 1) *: W
        /\ ((1 : R) = 0 -> S^T *m (Z01 R - S *m W) = 0)).
Proof.
have [S [W [_ _ eq_fit]]] :=
  esn_fit_ok tanh (Z01 R) (Z01 R) 0 1%:M 0 0 (isT : (1 < 2)%N) (@ltr01 R).
exists S, W; split; first exact: eq_fit.
exact: (esn_fit_normal_equations eq_fit).
Defined.

(** [esn_fit_exact_recovery] over the reals: the targets [S @ [[3.]]] are
    fitted by the weight 3. *)
Lemma esn_fit_exact_recovery_witness :
  exists S : 'M[R]_(2, 1),
    [/\ esn_collect tanh (Z01 R) 0 1%:M 0 0 = Ok S,
        S^T *m S \in unitmx
      & esn_fit tanh (S *m (3%:M : 'M[R]_1)) (Z01 R) 0 0 1%:M 0 0
        = Ok (3%:M, S, S *m 3%:M, 0)].
Proof.
have [S eq_S unit_G] := gram_Z01_unit.
exists S; split; [exact: eq_S | exact: unit_G |].
exact: (esn_fit_exact_recovery 3%:M eq_S unit_G).
Defined.

(** [esn_fit_returns_iff] over the reals, with the penalty 1. *)
Lemma esn_fit_returns_iff_witness :
  (0 : R) < 1
  /\ (((exists r, esn_fit tanh (Z01 R) (Z01 R) 1 0 1%:M 0 0 = Ok r)
       <-> (1 < 2)%N)
      /\ ((2 < 2)%N ->
          esn_fit tanh (Z01 R) (Z01 R) 1 0 1%:M 0 0 = Raise IndexError)).
Proof.
split; first exact: ltr01.
exact: (esn_fit_returns_iff tanh (Z01 R) (Z01 R) 0 1%:M 0 0 (@ltr01 R)).
Defined.

(** [esn_auto_states_bounded] over the reals, from the zero state, for the
    horizon 3. *)
Lemma esn_auto_states_bounded_witness :
  [/\ forall x, `|tanh x| <= 1, 0 <= (1 / 2 : R) <= 1
    & forall j, -1 <= (0 : 'rV[R]_1) 0 j <= 1]
  /\ match esn_auto tanh (0 : 'rV[R]_1) 3 1%:M (1%:M : 'M[R]_1) 0 (1 / 2)
             1%:M with
     | Ok st => forall t j, -1 <= st.1 t j <= 1
     | Raise _ => 3%N = 0%N
     end.
Proof.
have alpha01 : 0 <= (1 / 2 : R) <= 1 := half_in_unit R.
have seed01 (j : 'I_1) : -1 <= (0 : 'rV[R]_1) 0 j <= 1.
  by rewrite mxE lerN10 ler01.
split; first by split; [exact: tanh_le1 | exact: alpha01 | exact: seed01].
exact: (esn_auto_states_bounded 3 1%:M 1%:M 0 1%:M tanh_le1 alpha01 seed01).
Defined.

(** [esn_fit_auto_starts_at_last_fit] over the reals, on two inputs with
    the penalty 1 and the horizon 2. *)
Lemma esn_fit_auto_starts_at_last_fit_witness :
  (0 : R) < 1
  /\ exists W : 'M[R]_1, exists X : 'M[R]_(2, 1),
     exists Y_fit : 'M[R]_(2, 1),
     exists Xh : 'M[R]_(2, 1), exists Yh : 'M[R]_(2, 1),
       [/\ esn_fit_auto tanh (Z01 R) (Z01 R) 1 0 1%:M 0 0 2
           = Ok (W, X, Y_fit, Xh, Yh),
           row 0 Xh = row ord_max X,
           row 0 Yh = row ord_max Y_fit
         & forall t : 'I_2, t = 1%N :> nat ->
             row t Xh = esn_collect_update tanh 0 1%:M 0 0
                          (row ord_max X) (row ord_max Y_fit)].
Proof.
split; first exact: ltr01.
exact: (@esn_fit_auto_starts_at_last_fit R tanh 1 1 0 1 (Z01 R) (Z01 R) 1 0
          1%:M 0 0 (@ltr01 R)).
Defined.

(** [mackey_glass_startup] on the parameters of the notebook, for 3
    steps. *)
Lemma mackey_glass_startup_witness :
  ((0 : rat) <= 25 /\ (0 : rat) < 1 / 5)
  /\ exists2 x : 'rV[rat]_3,
       mackey_glass rat_pow (1 / 5) (1 / 10) 10 25 (1 / 10) (1 / 5) 3
       = Ok ((1 / 10) *: x)
     & forall t' t : 'I_3, t = t'.+1 :> nat -> t%:R * (1 / 5) <= (25 : rat) ->
         x 0 t = x 0 t' + 1 / 5 * (1 / 5 * (1 / 2) / (1 + rat_pow (1 / 2) 10)
                                   - 1 / 10 * x 0 t').
Proof.
have ge0_tau : (0 : rat) <= 25 by [].
have gt0_dt : (0 : rat) < 1 / 5 by [].
split; first by split.
exact: (mackey_glass_startup rat_pow (1 / 5) (1 / 10) 10 (1 / 10) 2 ge0_tau
          gt0_dt).
Defined.

Lemma rat_pow_ge0 (n v : rat) : 0 <= v -> 0 <= rat_pow v n.
Proof. by move=> ge0_v; rewrite /rat_pow exprz_ge0. Qed.

(** [mackey_glass_nonneg] on the parameters of the notebook, for 3
    steps. *)
Lemma mackey_glass_nonneg_witness :
  [/\ (0 : rat) <= 1 / 5, (0 : rat) <= 1 / 10, (1 / 10 : rat) * (1 / 5) <= 1
    & (0 : rat) <= 1 / 10]
  /\ [/\ (0 : rat) <= 25, (0 : rat) < 1 / 5
       & forall v : rat, 0 <= v -> 0 <= rat_pow v 10]
  /\ match mackey_glass rat_pow (1 / 5) (1 / 10) 10 25 (1 / 10) (1 / 5) 3 with
     | Ok y => forall j, 0 <= y 0 j
     | Raise _ => 3%N = 0%N
     end.
Proof.
have ge0_beta : (0 : rat) <= 1 / 5 by [].
have ge0_gamma : (0 : rat) <= 1 / 10 by [].
have le_gdt : (1 / 10 : rat) * (1 / 5) <= 1 by [].
have ge0_tau : (0 : rat) <= 25 by [].
have gt0_dt : (0 : rat) < 1 / 5 by [].
split; first by split.
split; first by split=> //; apply: rat_pow_ge0.
exact: (mackey_glass_nonneg 3 ge0_beta ge0_gamma le_gdt ge0_gamma ge0_tau
          gt0_dt (rat_pow_ge0 10)).
Defined.

Lemma alternating_le1 (k : nat) : `|alternating k| <= 1.
Proof. by rewrite /alternating normrX normrN1 expr1n. Qed.

(** [nonlin_ar_bounded] on alternating draws, for 3 values after a burn-in
    of 2. *)
Lemma nonlin_ar_bounded_witness :
  (forall k, `|alternating k| <= 1)
  /\ match nonlin_ar alternating 3 2 with
     | Ok r => forall j, `|r.1 0 j| <= 17 / 8
     | Raise _ => (3 + 2)%N = 0%N
     end.
Proof.
split; first exact: alternating_le1.
exact: (nonlin_ar_bounded 3 2 alternating_le1).
Defined.

(** [nonlin_ar_condpred_paths] on two paths with alternating draws, from
    [X0 = 5]. *)
Lemma nonlin_ar_condpred_paths_witness :
  (forall k (j : 'I_2),
      `|(const_mx (alternating k) : 'rV[rat]_2) 0 j| <= 1)
  /\ match nonlin_ar_condpred (fun k => const_mx (alternating k) : 'rV[rat]_2)
             3 5 with
     | Ok Xh =>
         (forall (t : 'I_3) j, t = 0%N :> nat -> Xh t j = 5)
         /\ (forall (t' t : 'I_3) j, t = t'.+1 :> nat ->
              Xh t j = 2 * Xh t' j / (1 + 4 / 5 * Xh t' j ^+ 2)
                       + (const_mx (alternating t') : 'rV[rat]_2) 0 j
              /\ `|Xh t j| <= 17 / 8)
     | Raise _ => 3%N = 0%N
     end.
Proof.
have draws_le1 (k : nat) (j : 'I_2) :
    `|(const_mx (alternating k) : 'rV[rat]_2) 0 j| <= 1.
  by rewrite mxE alternating_le1.
split; first exact: draws_le1.
exact: (@nonlin_ar_condpred_paths rat 2 _ 3 5 draws_le1).
Defined.

(** [CityDataset_windows] on four rows with windows of two: the window at
    index 2 is full, and 2 is the reported length. *)
Lemma CityDataset_windows_witness :
  (size [:: 1; 2; 3; 4]%N = size [:: 10; 20; 30; 40]%N
   /\ (2 + 2 <= size [:: 10; 20; 30; 40]%N)%N)
  /\ let self := CityDataset_init [:: 1; 2; 3; 4]%N [:: 10; 20; 30; 40]%N 2 in
     let w := CityDataset_getitem self 2 in
     [/\ w = (take 2 (drop 2 [:: 1; 2; 3; 4]%N),
              take 2 (drop 2 [:: 10; 20; 30; 40]%N)),
         size w.1 = 2%N,
         size w.2 = 2%N
       & (2 < CityDataset_len self)
         = (2 + 2 < size [:: 10; 20; 30; 40]%N)%N].
Proof.
split; first by [].
exact: (@CityDataset_windows nat nat [:: 1; 2; 3; 4]%N
          [:: 10; 20; 30; 40]%N 2 2 (erefl _) isT).
Defined.

(** [PMDataset_padded_tiling] on three rows with windows of two: one zero
    row is added. *)
Lemma PMDataset_padded_tiling_witness :
  size [:: 1; 2; 3]%N = size [:: 10; 20; 30]%N
  /\ exists self : PMDataset nat nat,
       [/\ PMDataset_init 0%N 0%N [:: 1; 2; 3]%N [:: 10; 20; 30]%N 2 true
           = Ok self,
           pm_X self = [:: 1; 2; 3]%N ++ nseq (pm_added self) 0%N
           /\ pm_y self = [:: 10; 20; 30]%N ++ nseq (pm_added self) 0%N,
           (pm_added self < 2)%N /\ (2 %| size (pm_X self))%N,
           PMDataset_len self = Ok (Posz (size (pm_X self) %/ 2))
         & flatten [seq (PMDataset_getitem self (Posz i)).1
                   | i <- iota 0 (size (pm_X self) %/ 2)] = pm_X self
           /\ flatten [seq (PMDataset_getitem self (Posz i)).2
                      | i <- iota 0 (size (pm_X self) %/ 2)] = pm_y self].
Proof.
split; first by [].
exact: (@PMDataset_padded_tiling nat nat 0%N 0%N [:: 1; 2; 3]%N
          [:: 10; 20; 30]%N 1 (erefl _)).
Defined.

(** [PMDataset_unpadded_windows] on three rows with windows of two: the
    third row is in no window. *)
Lemma PMDataset_unpadded_windows_witness :
  size [:: 1; 2; 3]%N = size [:: 10; 20; 30]%N
  /\ exists self : PMDataset nat nat,
       [/\ PMDataset_init 0%N 0%N [:: 1; 2; 3]%N [:: 10; 20; 30]%N 2 false
           = Ok self,
           pm_X self = [:: 1; 2; 3]%N /\ pm_y self = [:: 10; 20; 30]%N,
           PMDataset_len self = Ok (Posz (size [:: 1; 2; 3]%N %/ 2)),
           forall i, (i < size [:: 1; 2; 3]%N %/ 2)%N ->
             size (PMDataset_getitem self (Posz i)).1 = 2%N
             /\ size (PMDataset_getitem self (Posz i)).2 = 2%N
         & flatten [seq (PMDataset_getitem self (Posz i)).1
                   | i <- iota 0 (size [:: 1; 2; 3]%N %/ 2)]
           = take (size [:: 1; 2; 3]%N - size [:: 1; 2; 3]%N %% 2)
               [:: 1; 2; 3]%N].
Proof.
split; first by [].
exact: (@PMDataset_unpadded_windows nat nat 0%N 0%N [:: 1; 2; 3]%N
          [:: 10; 20; 30]%N 1 (erefl _)).
Defined.
